(** * Microphone controller of the [microphone-process] pattern

    A shallow embedding of
    [src/site/content/en/patterns/media/microphone-process/assets/script.js]:
    the two click listeners, the module-level [stream] variable, the part of
    the browser they talk to (media tracks, the audio graph, the stop
    button's [disabled] flag, the status sink) and the event loop that runs
    the asynchronous start listener one segment at a time. *)

From stdpp Require Import base option list gmap strings.

Open Scope string_scope.
Open Scope list_scope.

(** ** Host values *)

(** The exceptions the listeners can meet. The first three reject
    [getUserMedia], [AbortError] rejects [addModule], [NotSupportedError]
    and [InvalidStateError] are thrown by the Web Audio constructors, and
    [TypeError] is the property read on [undefined]. *)
Inductive Error :=
  | NotAllowedError
  | NotFoundError
  | NotReadableError
  | AbortError
  | NotSupportedError
  | InvalidStateError
  | TypeError.

(** [MediaStreamTrack.readyState]. *)
Inductive ReadyState := Live | Ended.

#[global] Instance ReadyState_eq_dec : EqDecision ReadyState.
Proof. solve_decision. Defined.

Abbreviation TrackId := nat (only parsing).
Abbreviation ContextId := nat (only parsing).
Abbreviation TaskId := nat (only parsing).

(** A [MediaStream] never changes its track set here, so the value is the
    list that [getTracks()] returns; the tracks themselves are mutable
    objects and live in the store of the [World]. *)
Record MediaStream := { getTracks : list TrackId }.

#[global] Instance MediaStream_eq_dec : EqDecision MediaStream.
Proof. solve_decision. Defined.

Inductive AudioNode :=
  | MediaStreamSource (c : ContextId) (s : MediaStream)
  | WorkletNode (c : ContextId) (name : string)
  | Destination (c : ContextId).

#[global] Instance AudioNode_eq_dec : EqDecision AudioNode.
Proof. solve_decision. Defined.

(** What the start listener holds while it waits: nothing at the first
    [await], the two [const]s of lines 11-12 at the second. *)
Inductive Suspended :=
  | AwaitGetUserMedia
  | AwaitAddModule (context : ContextId) (source : AudioNode).

(** What reaches the default handler of the host. *)
Inductive Report :=
  | UnhandledRejection (e : Error)
  | UncaughtException (e : Error).

(** The steps of one run of the start listener, in the order of the
    source lines, as they are written in the [history] of the world. *)
Inductive Action :=
  | GetUserMediaCalled
  | PermissionGranted
  | StreamAssigned
  | ContextCreated
  | SourceCreated
  | AddModuleCalled
  | ModuleLoaded
  | ProcessorCreated
  | SourceConnected
  | ProcessorConnected
  | StopEnabled
  | StatusLogged
  | Returned
  | Threw.

#[global] Instance Action_eq_dec : EqDecision Action.
Proof. solve_decision. Defined.

(** ** The world *)

Record World := mkWorld {
  (* script.js *)
  stream : option MediaStream;            (* [let stream;], [None] is undefined *)
  (* the page *)
  stopDisabled : bool;                    (* [stopMicrophoneButton.disabled] *)
  statusLog : list string;                (* what [log] has shown so far *)
  (* the media and audio host *)
  tracks : gmap TrackId ReadyState;
  next_track : TrackId;
  next_context : ContextId;
  edges : list (AudioNode * AudioNode);   (* connections made by [connect] *)
  (* the event loop *)
  pending : gmap TaskId Suspended;
  next_task : TaskId;
  current : option TaskId;
  history : list (TaskId * Action);
  reported : list Report
}.

Definition set_stream (v : option MediaStream) (w : World) : World :=
  mkWorld v (stopDisabled w) (statusLog w) (tracks w) (next_track w)
          (next_context w) (edges w) (pending w) (next_task w) (current w)
          (history w) (reported w).

Definition set_stopDisabled (v : bool) (w : World) : World :=
  mkWorld (stream w) v (statusLog w) (tracks w) (next_track w)
          (next_context w) (edges w) (pending w) (next_task w) (current w)
          (history w) (reported w).

Definition set_statusLog (v : list string) (w : World) : World :=
  mkWorld (stream w) (stopDisabled w) v (tracks w) (next_track w)
          (next_context w) (edges w) (pending w) (next_task w) (current w)
          (history w) (reported w).

Definition set_tracks (v : gmap TrackId ReadyState) (w : World) : World :=
  mkWorld (stream w) (stopDisabled w) (statusLog w) v (next_track w)
          (next_context w) (edges w) (pending w) (next_task w) (current w)
          (history w) (reported w).

Definition set_next_track (v : TrackId) (w : World) : World :=
  mkWorld (stream w) (stopDisabled w) (statusLog w) (tracks w) v
          (next_context w) (edges w) (pending w) (next_task w) (current w)
          (history w) (reported w).

Definition set_next_context (v : ContextId) (w : World) : World :=
  mkWorld (stream w) (stopDisabled w) (statusLog w) (tracks w) (next_track w)
          v (edges w) (pending w) (next_task w) (current w)
          (history w) (reported w).

Definition set_edges (v : list (AudioNode * AudioNode)) (w : World) : World :=
  mkWorld (stream w) (stopDisabled w) (statusLog w) (tracks w) (next_track w)
          (next_context w) v (pending w) (next_task w) (current w)
          (history w) (reported w).

Definition set_pending (v : gmap TaskId Suspended) (w : World) : World :=
  mkWorld (stream w) (stopDisabled w) (statusLog w) (tracks w) (next_track w)
          (next_context w) (edges w) v (next_task w) (current w)
          (history w) (reported w).

Definition set_next_task (v : TaskId) (w : World) : World :=
  mkWorld (stream w) (stopDisabled w) (statusLog w) (tracks w) (next_track w)
          (next_context w) (edges w) (pending w) v (current w)
          (history w) (reported w).

Definition set_current (v : option TaskId) (w : World) : World :=
  mkWorld (stream w) (stopDisabled w) (statusLog w) (tracks w) (next_track w)
          (next_context w) (edges w) (pending w) (next_task w) v
          (history w) (reported w).

Definition set_history (v : list (TaskId * Action)) (w : World) : World :=
  mkWorld (stream w) (stopDisabled w) (statusLog w) (tracks w) (next_track w)
          (next_context w) (edges w) (pending w) (next_task w) (current w)
          v (reported w).

Definition set_reported (v : list Report) (w : World) : World :=
  mkWorld (stream w) (stopDisabled w) (statusLog w) (tracks w) (next_track w)
          (next_context w) (edges w) (pending w) (next_task w) (current w)
          (history w) v.

(** The page as the script finds it. The markup is not part of the script,
    so the initial [disabled] flag of the stop button is a parameter. *)
Definition initial (disabled : bool) : World :=
  mkWorld None disabled [] ∅ 0 0 [] ∅ 0 None [] [].

(** ** Listener code: state that survives an exception *)

Inductive Completion (A : Type) :=
  | Normal (a : A)
  | Throw (e : Error).
Arguments Normal {A} a.
Arguments Throw {A} e.

Definition M (A : Type) : Type := World → Completion A * World.

#[global] Instance M_ret : MRet M := λ A a w, (Normal a, w).

#[global] Instance M_bind : MBind M := λ A B f m w,
  match m w with
  | (Normal a, w') => f a w'
  | (Throw e, w') => (Throw e, w')
  end.

Definition throw {A} (e : Error) : M A := λ w, (Throw e, w).

Definition modify (f : World → World) : M unit := λ w, (Normal (), f w).

Definition read {A} (f : World → A) : M A := λ w, (Normal (f w), w).

(** A step of the running start listener goes into the history; the stop
    listener runs with no [current] task and leaves none. *)
Definition emit (a : Action) : M unit :=
  modify (λ w, match current w with
               | Some τ => set_history (history w ++ [(τ, a)]) w
               | None => w
               end).

Fixpoint forEach {A} (l : list A) (f : A → M unit) : M unit :=
  match l with
  | [] => mret ()
  | x :: l' => f x ;; forEach l' f
  end.

(** ** What the host answers *)

(** [getUserMedia({audio: true})] resolves with a stream that carries the
    audio track asked for ([more] counts any further tracks), or rejects. *)
Inductive PermissionResponse :=
  | Granted (more : nat)
  | Rejected (e : Error).

(** [audioWorklet.addModule] resolves or rejects. *)
Inductive ModuleResponse :=
  | Loaded
  | LoadFailed (e : Error).

(** ** Host primitives *)

Definition start_tracks (ids : list TrackId) (m : gmap TrackId ReadyState)
  : gmap TrackId ReadyState :=
  foldr (λ t acc, <[t:=Live]> acc) m ids.

(** The host opens [n] new live tracks and wraps them in a new stream. *)
Definition capture (n : nat) : M MediaStream := λ w,
  let ids := seq (next_track w) n in
  (Normal {| getTracks := ids |},
   set_next_track (next_track w + n) (set_tracks (start_tracks ids (tracks w)) w)).

(** [await navigator.mediaDevices.getUserMedia({audio: true})], from the
    moment the promise settles. *)
Definition await_getUserMedia (r : PermissionResponse) : M MediaStream :=
  match r with
  | Granted more => s ← capture (S more); emit PermissionGranted;; mret s
  | Rejected e => throw e
  end.

(** [new AudioContext()]; the host may refuse to open one. *)
Definition new_AudioContext (ok : bool) : M ContextId :=
  if ok
  then c ← read next_context;
       modify (set_next_context (S c));; emit ContextCreated;; mret c
  else throw NotSupportedError.

(** [context.createMediaStreamSource(stream)] reads the variable. *)
Definition createMediaStreamSource (c : ContextId) (v : option MediaStream)
  : M AudioNode :=
  match v with
  | None => throw TypeError
  | Some s =>
      match getTracks s with
      | [] => throw InvalidStateError
      | _ :: _ => emit SourceCreated;; mret (MediaStreamSource c s)
      end
  end.

(** [await context.audioWorklet.addModule(...)], from the moment the
    promise settles. *)
Definition await_addModule (r : ModuleResponse) : M unit :=
  match r with
  | Loaded => emit ModuleLoaded
  | LoadFailed e => throw e
  end.

(** [new AudioWorkletNode(context, name)] throws when the loaded module
    registered no processor of that name. *)
Definition new_AudioWorkletNode (c : ContextId) (name : string)
    (registered : bool) : M AudioNode :=
  if registered
  then emit ProcessorCreated;; mret (WorkletNode c name)
  else throw InvalidStateError.

Definition connect_action (a : AudioNode) : Action :=
  match a with
  | MediaStreamSource _ _ => SourceConnected
  | _ => ProcessorConnected
  end.

(** [a.connect(b)] returns [b], which is what makes the chain of line 17. *)
Definition connect (a b : AudioNode) : M AudioNode :=
  modify (λ w, set_edges (edges w ++ [(a, b)]) w);;
  emit (connect_action a);;
  mret b.

(** [track.stop()]. *)
Definition track_stop (t : TrackId) : M unit :=
  modify (λ w, set_tracks (<[t:=Ended]> (tracks w)) w).

(** [stream.getTracks()] on the variable, which may be undefined. *)
Definition stream_getTracks (v : option MediaStream) : M (list TrackId) :=
  match v with
  | None => throw TypeError
  | Some s => mret (getTracks s)
  end.

(** Modelled from the spec: [log] is not defined in the script; the spec
    has it as the status-message sink that is called after start and after
    stop, so it appends the message to what the page shows. *)
Definition log (msg : string) : M unit :=
  modify (λ w, set_statusLog (statusLog w ++ [msg]) w);;
  emit StatusLogged.

(** ** script.js *)

(** Lines 6-8, up to the first [await]. *)
Definition startMicrophoneButton_click : M (option Suspended) :=
  emit GetUserMediaCalled;;
  mret (Some AwaitGetUserMedia).

(** Lines 8-14, from the first [await] to the second. *)
Definition startMicrophoneButton_click_1 (r : PermissionResponse)
    (context_ok : bool) : M (option Suspended) :=
  s ← await_getUserMedia r;
  modify (set_stream (Some s));; emit StreamAssigned;;
  context ← new_AudioContext context_ok;
  v ← read stream;
  source ← createMediaStreamSource context v;
  emit AddModuleCalled;;
  mret (Some (AwaitAddModule context source)).

(** Lines 14-21, from the second [await] to the end. *)
Definition startMicrophoneButton_click_2 (context : ContextId)
    (source : AudioNode) (r : ModuleResponse) (registered : bool)
  : M (option Suspended) :=
  await_addModule r;;
  processor ← new_AudioWorkletNode context "processor" registered;
  out ← connect source processor;
  connect out (Destination context);;
  modify (set_stopDisabled false);; emit StopEnabled;;
  log "Your microphone audio is being used.";;
  mret None.

(** Lines 23-28. *)
Definition stopMicrophoneButton_click : M unit :=
  v ← read stream;
  ts ← stream_getTracks v;
  forEach ts track_stop;;
  log "Your microphone audio is not used anymore.".

(** ** The event loop *)

(** One segment of the asynchronous listener [τ]: it suspends again,
    returns, or throws, and an exception rejects a promise nobody holds. *)
Definition run_async (τ : TaskId) (m : M (option Suspended)) (w : World)
  : World :=
  match m (set_current (Some τ) w) with
  | (Normal (Some k), w') =>
      set_current None (set_pending (<[τ:=k]> (pending w')) w')
  | (Normal None, w') =>
      set_current None
        (set_history (history w' ++ [(τ, Returned)])
           (set_pending (delete τ (pending w')) w'))
  | (Throw e, w') =>
      set_current None
        (set_history (history w' ++ [(τ, Threw)])
           (set_reported (reported w' ++ [UnhandledRejection e])
              (set_pending (delete τ (pending w')) w')))
  end.

(** A synchronous listener: an exception leaves it at once. *)
Definition run_sync (m : M unit) (w : World) : World :=
  match m (set_current None w) with
  | (Normal _, w') => w'
  | (Throw e, w') => set_reported (reported w' ++ [UncaughtException e]) w'
  end.

Inductive Event :=
  | ClickStart
  | ClickStop
  | SettleGetUserMedia (τ : TaskId) (r : PermissionResponse) (context_ok : bool)
  | SettleAddModule (τ : TaskId) (r : ModuleResponse) (registered : bool).

(** One turn of the loop. [None]: the event cannot happen in this world
    (no listener is waiting for that promise). *)
Definition step (ev : Event) (w : World) : option World :=
  match ev with
  | ClickStart =>
      Some (run_async (next_task w) startMicrophoneButton_click
              (set_next_task (S (next_task w)) w))
  | ClickStop =>
      Some (run_sync stopMicrophoneButton_click w)
  | SettleGetUserMedia τ r context_ok =>
      match pending w !! τ with
      | Some AwaitGetUserMedia =>
          Some (run_async τ (startMicrophoneButton_click_1 r context_ok) w)
      | _ => None
      end
  | SettleAddModule τ r registered =>
      match pending w !! τ with
      | Some (AwaitAddModule context source) =>
          Some (run_async τ
                  (startMicrophoneButton_click_2 context source r registered) w)
      | _ => None
      end
  end.

Fixpoint exec (evs : list Event) (w : World) : option World :=
  match evs with
  | [] => Some w
  | ev :: evs' =>
      match step ev w with
      | Some w' => exec evs' w'
      | None => None
      end
  end.

(** ** The two operations *)

(** Everything the host answers during one run of the start listener. *)
Record StartHost := {
  permission : PermissionResponse;
  context_ok : bool;
  module : ModuleResponse;
  registered : bool
}.

(** Start: one click on the start button, run to its end with nothing
    in between. *)
Definition Start (h : StartHost) (w : World) : World :=
  let τ := next_task w in
  let w1 := run_async τ startMicrophoneButton_click
              (set_next_task (S τ) w) in
  let w2 := run_async τ
              (startMicrophoneButton_click_1 (permission h) (context_ok h)) w1 in
  match pending w2 !! τ with
  | Some (AwaitAddModule context source) =>
      run_async τ
        (startMicrophoneButton_click_2 context source (module h) (registered h))
        w2
  | _ => w2
  end.

(** Stop: one run of the stop listener. *)
Definition Stop (w : World) : World :=
  run_sync stopMicrophoneButton_click w.

(** The events of the loop that make up [Start h] for the listener [τ]. *)
Definition Start_events (h : StartHost) (τ : TaskId) : list Event :=
  [ClickStart; SettleGetUserMedia τ (permission h) (context_ok h)] ++
  match permission h, context_ok h with
  | Granted _, true => [SettleAddModule τ (module h) (registered h)]
  | _, _ => []
  end.

Definition granted (more : nat) : StartHost :=
  {| permission := Granted more; context_ok := true;
     module := Loaded; registered := true |}.

(** ** The state machine of the spec, read off the world *)

Inductive State := Idle | Capturing.

(** [MediaStream.active]: some track has not ended. *)
Definition active (w : World) (s : MediaStream) : bool :=
  existsb (λ t, bool_decide (tracks w !! t = Some Live)) (getTracks s).

(** The graph source → processor → output stands for the stream [s]. *)
Definition connected (w : World) (s : MediaStream) : bool :=
  existsb (λ e,
    match e with
    | (MediaStreamSource c s', WorkletNode c' name) =>
        bool_decide (s' = s) && bool_decide (c' = c) &&
        bool_decide ((WorkletNode c name, Destination c) ∈ edges w)
    | _ => false
    end) (edges w).

Definition capturing (w : World) : bool :=
  match stream w with
  | Some s => active w s && connected w s
  | None => false
  end.

Definition controller_state (w : World) : State :=
  if capturing w then Capturing else Idle.

Definition started_message : string := "Your microphone audio is being used.".
Definition stopped_message : string := "Your microphone audio is not used anymore.".

Close Scope string_scope.

(** The exception that ends a run of the start listener, if any. *)
Definition start_error (h : StartHost) : option Error :=
  match permission h with
  | Rejected e => Some e
  | Granted _ =>
      if context_ok h then
        match module h with
        | LoadFailed e => Some e
        | Loaded => if registered h then None else Some InvalidStateError
        end
      else Some NotSupportedError
  end.

(** The stream that a grant hands out in the world [w]. *)
Definition fresh_stream (w : World) (more : nat) : MediaStream :=
  {| getTracks := seq (next_track w) (S more) |}.

(** ** Histories *)

Definition emits (τ : TaskId) (l : list Action) (h : list (TaskId * Action))
  : list (TaskId * Action) :=
  foldl (λ acc a, acc ++ [(τ, a)]) h l.

Fixpoint own (τ : TaskId) (h : list (TaskId * Action)) : list Action :=
  match h with
  | [] => []
  | (τ', a) :: h' => if decide (τ' = τ) then a :: own τ h' else own τ h'
  end.

(** The steps of the run [τ] of the start listener, oldest first. *)
Definition task_history (w : World) (τ : TaskId) : list Action :=
  own τ (history w).





Definition called_steps : list Action := [GetUserMediaCalled].

Definition granted_steps : list Action :=
  [PermissionGranted; StreamAssigned; ContextCreated; SourceCreated;
   AddModuleCalled].

Definition loaded_steps : list Action :=
  [ModuleLoaded; ProcessorCreated; SourceConnected; ProcessorConnected;
   StopEnabled; StatusLogged; Returned].




(** ** Freshness of the streams the graph knows *)

Definition node_known (n : TrackId) (a : AudioNode) : bool :=
  match a with
  | MediaStreamSource _ s => forallb (λ t, bool_decide (t < n)) (getTracks s)
  | _ => true
  end.

(** Every stream that has a source node in the graph was handed out
    before: its tracks lie below [next_track]. *)
Definition graph_known (w : World) : bool :=
  forallb (λ e : AudioNode * AudioNode, node_known (next_track w) e.1)
          (edges w).

Definition known_inv (w : World) : Prop :=
  graph_known w = true ∧
  ∀ τ c src, pending w !! τ = Some (AwaitAddModule c src) →
             node_known (next_track w) src = true.

(** The tracks [ts], all below [L], belong to a stream the variable let
    go of: they are live, and whatever [stream] holds lies at [L] or above. *)
Definition leaked (L : TrackId) (ts : list TrackId) (w : World) : Prop :=
  L ≤ next_track w ∧
  (∀ s t, stream w = Some s → t ∈ getTracks s → L ≤ t) ∧
  (∀ t, t ∈ ts → tracks w !! t = Some Live).

(** No grant among the events. *)
Definition no_grant (evs : list Event) : bool :=
  forallb (λ ev, match ev with
                 | SettleGetUserMedia _ (Granted _) _ => false
                 | _ => true
                 end) evs.

(** What [forEach(track => track.stop())] leaves in the track store. *)
Definition stop_all (ts : list TrackId) (m : gmap TrackId ReadyState)
  : gmap TrackId ReadyState :=
  foldl (λ acc t, <[t:=Ended]> acc) m ts.

(** ** What holds in every world the loop reaches *)

(** Every track in the store was handed out, and the variable, once
    defined, holds the stream that was handed out last. *)
Definition store_inv (w : World) : Prop :=
  (∀ t st, tracks w !! t = Some st → t < next_track w) ∧
  (∀ s, stream w = Some s →
        ∃ more, S more ≤ next_track w ∧
                getTracks s = seq (next_track w - S more) (S more)).

(** The stop button is only enabled, and a run only waits for its module,
    when the variable is defined. *)
Definition gate_inv (w : World) : Prop :=
  (stopDisabled w = false → is_Some (stream w)) ∧
  (∀ τ c src, pending w !! τ = Some (AwaitAddModule c src) →
              is_Some (stream w)).

(** The exceptions that left a synchronous listener. *)
Definition uncaught (rs : list Report) : list Error :=
  omap (λ r, match r with
             | UncaughtException e => Some e
             | UnhandledRejection _ => None
             end) rs.

(** How often the message [m] was shown. *)
Definition shown (m : string) (l : list string) : nat :=
  length (filter (λ x, x = m) l).

(** How many runs of the start listener have returned. *)
Definition returned_runs (h : list (TaskId * Action)) : nat :=
  length (filter (λ p : TaskId * Action, p.2 = Returned) h).

(** Start and Stop in turn, once for each element of [ms] (the number of
    further tracks of each grant). *)
Definition cycles (ms : list nat) (w : World) : World :=
  foldl (λ acc more, Stop (Start (granted more) acc)) w ms.

(** A click on stop while the module of the run [τ] is loading. *)
Definition stop_while_loading (τ : TaskId) (more : nat) : list Event :=
  [ClickStart; SettleGetUserMedia τ (Granted more) true; ClickStop;
   SettleAddModule τ Loaded true].

(** The rejections of promises that nobody handled. *)
Definition rejections (rs : list Report) : list Error :=
  omap (λ r, match r with
             | UnhandledRejection e => Some e
             | UncaughtException _ => None
             end) rs.

(** How many runs of the start listener have ended in an exception. *)
Definition threw_runs (h : list (TaskId * Action)) : nat :=
  length (filter (λ p : TaskId * Action, p.2 = Threw) h).

(** * The lazy-loading snippets of the article

    The two [DOMContentLoaded] listeners of the article on lazy-loading
    images: one swaps [data-src] and [data-srcset] into [src] and [srcset]
    of every [img.lazy] that comes into view, the other adds the class
    [visible] to every [.lazy-background] that does. Both hand their
    elements to an [IntersectionObserver] and take them back on the first
    intersection. *)
Module LazyLoad.

Local Open Scope string_scope.
Local Open Scope list_scope.

(** ** The page *)

(** What the snippets read and write of an element. *)
Record Element := {
  localName : string;
  classList : list string;             (* the tokens of [class] *)
  attributes : gmap string string      (* the other content attributes *)
}.

(** An element is the node at its index in the document. *)
Record Page := {
  document : list Element;
  observed : option (gset nat)         (* the observer's targets, if one was made *)
}.

(** An [IntersectionObserverEntry]. *)
Record Entry := {
  target : nat;
  isIntersecting : bool
}.

(** A string attribute that is assigned [undefined] holds the text
    "undefined". *)
Definition ToString (v : option string) : string :=
  match v with
  | Some s => s
  | None => "undefined"
  end.

(** [element.dataset[key]]: the attribute [data-key], undefined if absent. *)
Definition dataset (e : Element) (key : string) : option string :=
  attributes e !! ("data-" +:+ key).

(** [element[name] = value] for a reflected string attribute. *)
Definition assign (name : string) (value : option string) (e : Element)
  : Element :=
  {| localName := localName e; classList := classList e;
     attributes := <[name:=ToString value]> (attributes e) |}.

(** [element.classList.remove(token)]. *)
Definition classList_remove (token : string) (e : Element) : Element :=
  {| localName := localName e;
     classList := filter (λ c, c ≠ token) (classList e);
     attributes := attributes e |}.

(** [element.classList.add(token)]: a token set holds a token once. *)
Definition classList_add (token : string) (e : Element) : Element :=
  {| localName := localName e;
     classList := if decide (token ∈ classList e) then classList e
                  else classList e ++ [token];
     attributes := attributes e |}.

Definition on_element (i : nat) (f : Element → Element) (p : Page) : Page :=
  {| document := alter f i (document p); observed := observed p |}.

(** [observer.observe(target)] and [observer.unobserve(target)]. *)
Definition observe (i : nat) (p : Page) : Page :=
  {| document := document p; observed := (λ obs, {[i]} ∪ obs) <$> observed p |}.

Definition unobserve (i : nat) (p : Page) : Page :=
  {| document := document p; observed := (λ obs, obs ∖ {[i]}) <$> observed p |}.

Fixpoint select_from (i : nat) (sel : Element → bool) (doc : list Element)
  : list nat :=
  match doc with
  | [] => []
  | e :: doc' =>
      if sel e then i :: select_from (S i) sel doc'
      else select_from (S i) sel doc'
  end.

(** [[].slice.call(document.querySelectorAll(selector))], in document order. *)
Definition querySelectorAll (sel : Element → bool) (doc : list Element)
  : list nat :=
  select_from 0 sel doc.

(** The selector [img.lazy]. *)
Definition img_lazy (e : Element) : bool :=
  bool_decide (localName e = "img") && bool_decide ("lazy" ∈ classList e).

(** The selector [.lazy-background]. *)
Definition lazy_background (e : Element) : bool :=
  bool_decide ("lazy-background" ∈ classList e).

(** ** Inline images (the first listener) *)

(** The body of [entries.forEach] in the observer's callback. *)
Definition lazyImageObserver_entry (entry : Entry) (p : Page) : Page :=
  if isIntersecting entry then
    let lazyImage := target entry in
    let p1 := on_element lazyImage (λ e, assign "src" (dataset e "src") e) p in
    let p2 := on_element lazyImage
                (λ e, assign "srcset" (dataset e "srcset") e) p1 in
    let p3 := on_element lazyImage (classList_remove "lazy") p2 in
    unobserve lazyImage p3
  else p.

Definition lazyImageObserver_callback (entries : list Entry) (p : Page)
  : Page :=
  foldl (λ acc entry, lazyImageObserver_entry entry acc) p entries.

(** The listener. Without [IntersectionObserver] in [window] it makes no
    observer and does nothing. *)
Definition lazyImages_onDOMContentLoaded (has_IntersectionObserver : bool)
    (doc : list Element) : Page :=
  let lazyImages := querySelectorAll img_lazy doc in
  if has_IntersectionObserver then
    foldl (λ acc lazyImage, observe lazyImage acc)
          {| document := doc; observed := Some ∅ |} lazyImages
  else {| document := doc; observed := None |}.

(** ** Background images (the second listener) *)

Definition lazyBackgroundObserver_entry (entry : Entry) (p : Page) : Page :=
  if isIntersecting entry then
    let p1 := on_element (target entry) (classList_add "visible") p in
    unobserve (target entry) p1
  else p.

Definition lazyBackgroundObserver_callback (entries : list Entry) (p : Page)
  : Page :=
  foldl (λ acc entry, lazyBackgroundObserver_entry entry acc) p entries.

Definition lazyBackgrounds_onDOMContentLoaded (has_IntersectionObserver : bool)
    (doc : list Element) : Page :=
  let lazyBackgrounds := querySelectorAll lazy_background doc in
  if has_IntersectionObserver then
    foldl (λ acc lazyBackground, observe lazyBackground acc)
          {| document := doc; observed := Some ∅ |} lazyBackgrounds
  else {| document := doc; observed := None |}.

(** ** The host *)

(** The observer is told about targets it observes. One batch may name a
    target more than once and in any order. [None]: no such batch can come
    (no observer, or a target that is not observed). *)
Definition deliver (callback : list Entry → Page → Page)
    (entries : list Entry) (p : Page) : option Page :=
  match observed p with
  | Some obs =>
      if forallb (λ entry, bool_decide (target entry ∈ obs)) entries
      then Some (callback entries p)
      else None
  | None => None
  end.

Fixpoint deliveries (callback : list Entry → Page → Page)
    (batches : list (list Entry)) (p : Page) : option Page :=
  match batches with
  | [] => Some p
  | entries :: batches' =>
      match deliver callback entries p with
      | Some p' => deliveries callback batches' p'
      | None => None
      end
  end.

(** ** What the callbacks do to one element *)

(** The three assignments of the image callback on the element itself. *)
Definition load_image (e : Element) : Element :=
  classList_remove "lazy"
    (assign "srcset" (dataset (assign "src" (dataset e "src") e) "srcset")
       (assign "src" (dataset e "src") e)).

(** The targets of the intersecting entries of a batch. *)
Definition intersecting (entries : list Entry) : list nat :=
  target <$> filter (λ entry, isIntersecting entry = true) entries.

(** A callback that applies [reveal] to every intersecting target and
    stops observing it. *)
Definition reveal_entry (reveal : Element → Element) (entry : Entry)
    (p : Page) : Page :=
  if isIntersecting entry
  then unobserve (target entry) (on_element (target entry) reveal p)
  else p.

Definition reveal_callback (reveal : Element → Element)
    (entries : list Entry) (p : Page) : Page :=
  foldl (λ acc entry, reveal_entry reveal entry acc) p entries.

(** Where an element of the loaded document [doc0] stands in [p]: waiting
    (as loaded, observed), revealed (changed once, no longer observed), or
    never selected (as loaded, never observed). *)
Definition element_state (sel : Element → bool) (reveal : Element → Element)
    (obs : gset nat) (p : Page) (i : nat) (e0 : Element) : Prop :=
  if sel e0
  then (i ∈ obs ∧ document p !! i = Some e0) ∨
       ((i ∉ obs) ∧ document p !! i = Some (reveal e0))
  else (i ∉ obs) ∧ document p !! i = Some e0.

Definition page_inv (sel : Element → bool) (reveal : Element → Element)
    (doc0 : list Element) (p : Page) : Prop :=
  ∃ obs, observed p = Some obs ∧
         length (document p) = length doc0 ∧
         (∀ i, i ∈ obs → i < length doc0) ∧
         ∀ i e0, doc0 !! i = Some e0 → element_state sel reveal obs p i e0.

End LazyLoad.

(** * Proofs *)

(** ** The track store *)

Lemma start_tracks_in ids m t :
  t ∈ ids → start_tracks ids m !! t = Some Live.
Proof.
  induction ids as [|i ids IH]; intros Hin; cbn.
  - by apply not_elem_of_nil in Hin.
  - destruct (decide (i = t)) as [->|Hne].
    + apply lookup_insert_eq.
    + rewrite lookup_insert_ne by done. apply IH.
      apply elem_of_cons in Hin as [->|Hin]; [done|exact Hin].
Qed.

Lemma start_tracks_out ids m t :
  t ∉ ids → start_tracks ids m !! t = m !! t.
Proof.
  induction ids as [|i ids IH]; intros Hout; cbn; [done|].
  apply not_elem_of_cons in Hout as [Hne Hout].
  rewrite lookup_insert_ne by done. by apply IH.
Qed.

Lemma stop_all_out ts m t : t ∉ ts → stop_all ts m !! t = m !! t.
Proof.
  revert m. induction ts as [|i ts IH]; intros m Hout; cbn; [done|].
  apply not_elem_of_cons in Hout as [Hne Hout].
  unfold stop_all in IH. rewrite IH by done. by rewrite lookup_insert_ne.
Qed.

Lemma stop_all_in ts m t : t ∈ ts → stop_all ts m !! t = Some Ended.
Proof.
  revert m. induction ts as [|i ts IH]; intros m Hin; cbn.
  - by apply not_elem_of_nil in Hin.
  - destruct (decide (t ∈ ts)) as [Hts|Hts].
    + by apply IH.
    + apply elem_of_cons in Hin as [->|Hin]; [|done].
      fold (stop_all ts (<[i:=Ended]> m)).
      rewrite stop_all_out by done. apply lookup_insert_eq.
Qed.

Lemma stop_all_lookup ts m t :
  stop_all ts m !! t = if decide (t ∈ ts) then Some Ended else m !! t.
Proof.
  destruct (decide (t ∈ ts)); [by apply stop_all_in|by apply stop_all_out].
Qed.

(** Stopping tracks that have ended changes nothing. *)
Lemma stop_all_twice ts m : stop_all ts (stop_all ts m) = stop_all ts m.
Proof.
  apply map_eq; intros t. rewrite !stop_all_lookup.
  by destruct (decide (t ∈ ts)).
Qed.

Lemma forEach_track_stop ts w :
  forEach ts track_stop w = (Normal (), set_tracks (stop_all ts (tracks w)) w).
Proof.
  revert w. induction ts as [|t ts IH]; intros w.
  - by destruct w.
  - cbn. unfold mbind, M_bind. cbn. by rewrite IH.
Qed.

(** ** Histories *)

Lemma emits_app τ l h : emits τ l h = h ++ map (pair τ) l.
Proof.
  revert h. induction l as [|a l IH]; intros h; cbn.
  - by rewrite app_nil_r.
  - unfold emits in IH. rewrite IH. by rewrite <- app_assoc.
Qed.

(** ** What one segment does to the world *)

Lemma run_click τ w :
  run_async τ startMicrophoneButton_click w =
  mkWorld (stream w) (stopDisabled w) (statusLog w) (tracks w) (next_track w)
    (next_context w) (edges w) (<[τ:=AwaitGetUserMedia]> (pending w))
    (next_task w) None (emits τ called_steps (history w)) (reported w).
Proof. reflexivity. Qed.

Lemma run_rejected τ e ok w :
  run_async τ (startMicrophoneButton_click_1 (Rejected e) ok) w =
  mkWorld (stream w) (stopDisabled w) (statusLog w) (tracks w) (next_track w)
    (next_context w) (edges w) (delete τ (pending w))
    (next_task w) None (emits τ [Threw] (history w))
    (reported w ++ [UnhandledRejection e]).
Proof. reflexivity. Qed.

Lemma run_no_context τ more w :
  run_async τ (startMicrophoneButton_click_1 (Granted more) false) w =
  let s := fresh_stream w more in
  mkWorld (Some s) (stopDisabled w) (statusLog w)
    (start_tracks (getTracks s) (tracks w)) (next_track w + S more)
    (next_context w) (edges w) (delete τ (pending w))
    (next_task w) None
    (emits τ [PermissionGranted; StreamAssigned; Threw] (history w))
    (reported w ++ [UnhandledRejection NotSupportedError]).
Proof. reflexivity. Qed.

Lemma run_granted τ more w :
  run_async τ (startMicrophoneButton_click_1 (Granted more) true) w =
  let s := fresh_stream w more in
  let c := next_context w in
  mkWorld (Some s) (stopDisabled w) (statusLog w)
    (start_tracks (getTracks s) (tracks w)) (next_track w + S more) (S c)
    (edges w) (<[τ:=AwaitAddModule c (MediaStreamSource c s)]> (pending w))
    (next_task w) None (emits τ granted_steps (history w)) (reported w).
Proof. reflexivity. Qed.

Lemma run_load_failed τ c src e reg w :
  run_async τ (startMicrophoneButton_click_2 c src (LoadFailed e) reg) w =
  mkWorld (stream w) (stopDisabled w) (statusLog w) (tracks w) (next_track w)
    (next_context w) (edges w) (delete τ (pending w))
    (next_task w) None (emits τ [Threw] (history w))
    (reported w ++ [UnhandledRejection e]).
Proof. reflexivity. Qed.

Lemma run_unregistered τ c src w :
  run_async τ (startMicrophoneButton_click_2 c src Loaded false) w =
  mkWorld (stream w) (stopDisabled w) (statusLog w) (tracks w) (next_track w)
    (next_context w) (edges w) (delete τ (pending w))
    (next_task w) None (emits τ [ModuleLoaded; Threw] (history w))
    (reported w ++ [UnhandledRejection InvalidStateError]).
Proof. reflexivity. Qed.

Lemma run_loaded τ c src w :
  run_async τ (startMicrophoneButton_click_2 c src Loaded true) w =
  mkWorld (stream w) false (statusLog w ++ [started_message])
    (tracks w) (next_track w) (next_context w)
    ((edges w ++ [(src, WorkletNode c "processor")]) ++
     [(WorkletNode c "processor", Destination c)])
    (delete τ (pending w)) (next_task w) None
    (emits τ [ModuleLoaded; ProcessorCreated; connect_action src;
              ProcessorConnected; StopEnabled; StatusLogged; Returned]
       (history w))
    (reported w).
Proof. reflexivity. Qed.

Lemma Stop_undefined w :
  stream w = None →
  Stop w =
  mkWorld None (stopDisabled w) (statusLog w) (tracks w) (next_track w)
    (next_context w) (edges w) (pending w) (next_task w) None (history w)
    (reported w ++ [UncaughtException TypeError]).
Proof.
  intros Hs. destruct w; cbn in Hs; subst. reflexivity.
Qed.

Lemma Stop_defined w s :
  stream w = Some s →
  Stop w =
  mkWorld (Some s) (stopDisabled w) (statusLog w ++ [stopped_message])
    (stop_all (getTracks s) (tracks w)) (next_track w)
    (next_context w) (edges w) (pending w) (next_task w) None (history w)
    (reported w).
Proof.
  intros Hs. destruct w; cbn in Hs; subst.
  unfold Stop, run_sync, stopMicrophoneButton_click, mbind, M_bind, read.
  cbn. rewrite forEach_track_stop. reflexivity.
Qed.

(** ** What one Start does to the world, by what the host answers *)

Lemma Start_rejected h w e :
  permission h = Rejected e →
  Start h w =
  mkWorld (stream w) (stopDisabled w) (statusLog w) (tracks w) (next_track w)
    (next_context w) (edges w)
    (delete (next_task w) (<[next_task w:=AwaitGetUserMedia]> (pending w)))
    (S (next_task w)) None
    (emits (next_task w) [Threw]
       (emits (next_task w) called_steps (history w)))
    (reported w ++ [UnhandledRejection e]).
Proof.
  intros Hp. unfold Start. rewrite Hp, run_click, run_rejected. cbn.
  by rewrite lookup_delete_eq.
Qed.

Lemma Start_no_context h w more :
  permission h = Granted more → context_ok h = false →
  Start h w =
  mkWorld (Some (fresh_stream w more)) (stopDisabled w) (statusLog w)
    (start_tracks (getTracks (fresh_stream w more)) (tracks w))
    (next_track w + S more) (next_context w) (edges w)
    (delete (next_task w) (<[next_task w:=AwaitGetUserMedia]> (pending w)))
    (S (next_task w)) None
    (emits (next_task w) [PermissionGranted; StreamAssigned; Threw]
       (emits (next_task w) called_steps (history w)))
    (reported w ++ [UnhandledRejection NotSupportedError]).
Proof.
  intros Hp Hc. unfold Start. rewrite Hp, Hc, run_click, run_no_context.
  cbn [pending]. by rewrite lookup_delete_eq.
Qed.

Lemma Start_load_failed h w more e :
  permission h = Granted more → context_ok h = true →
  module h = LoadFailed e →
  Start h w =
  mkWorld (Some (fresh_stream w more)) (stopDisabled w) (statusLog w)
    (start_tracks (getTracks (fresh_stream w more)) (tracks w))
    (next_track w + S more) (S (next_context w)) (edges w)
    (delete (next_task w)
       (<[next_task w:=AwaitAddModule (next_context w)
            (MediaStreamSource (next_context w) (fresh_stream w more))]>
          (<[next_task w:=AwaitGetUserMedia]> (pending w))))
    (S (next_task w)) None
    (emits (next_task w) [Threw]
       (emits (next_task w) granted_steps
          (emits (next_task w) called_steps (history w))))
    (reported w ++ [UnhandledRejection e]).
Proof.
  intros Hp Hc Hm. unfold Start. rewrite Hp, Hc, Hm, run_click, run_granted.
  cbn [pending]. rewrite lookup_insert_eq.
  by rewrite run_load_failed.
Qed.

Lemma Start_unregistered h w more :
  permission h = Granted more → context_ok h = true →
  module h = Loaded → registered h = false →
  Start h w =
  mkWorld (Some (fresh_stream w more)) (stopDisabled w) (statusLog w)
    (start_tracks (getTracks (fresh_stream w more)) (tracks w))
    (next_track w + S more) (S (next_context w)) (edges w)
    (delete (next_task w)
       (<[next_task w:=AwaitAddModule (next_context w)
            (MediaStreamSource (next_context w) (fresh_stream w more))]>
          (<[next_task w:=AwaitGetUserMedia]> (pending w))))
    (S (next_task w)) None
    (emits (next_task w) [ModuleLoaded; Threw]
       (emits (next_task w) granted_steps
          (emits (next_task w) called_steps (history w))))
    (reported w ++ [UnhandledRejection InvalidStateError]).
Proof.
  intros Hp Hc Hm Hr. unfold Start.
  rewrite Hp, Hc, Hm, Hr, run_click, run_granted.
  cbn [pending]. rewrite lookup_insert_eq.
  by rewrite run_unregistered.
Qed.

Lemma Start_granted more w :
  Start (granted more) w =
  mkWorld (Some (fresh_stream w more)) false
    (statusLog w ++ [started_message])
    (start_tracks (getTracks (fresh_stream w more)) (tracks w))
    (next_track w + S more) (S (next_context w))
    ((edges w ++
      [(MediaStreamSource (next_context w) (fresh_stream w more),
        WorkletNode (next_context w) "processor")]) ++
     [(WorkletNode (next_context w) "processor",
       Destination (next_context w))])
    (delete (next_task w)
       (<[next_task w:=AwaitAddModule (next_context w)
            (MediaStreamSource (next_context w) (fresh_stream w more))]>
          (<[next_task w:=AwaitGetUserMedia]> (pending w))))
    (S (next_task w)) None
    (emits (next_task w) loaded_steps
       (emits (next_task w) granted_steps
          (emits (next_task w) called_steps (history w))))
    (reported w).
Proof.
  unfold Start, granted. cbn [permission context_ok module registered].
  rewrite run_click, run_granted.
  cbn [pending]. rewrite lookup_insert_eq.
  by rewrite run_loaded.
Qed.


(** [Start] is a run of the loop: its events are always possible, and
    they end in the world that [Start] computes. *)
Lemma Start_is_exec h w :
  exec (Start_events h (next_task w)) w = Some (Start h w).
Proof.
  destruct h as [[more|e] [] m r]; unfold Start_events, Start;
    cbn [permission context_ok module registered app exec step].
  - rewrite run_click. cbn [pending]. rewrite lookup_insert_eq.
    rewrite run_granted. cbn [pending]. rewrite lookup_insert_eq. reflexivity.
  - rewrite run_click. cbn [pending]. rewrite lookup_insert_eq.
    rewrite run_no_context. cbn [pending]. by rewrite lookup_delete_eq.
  - rewrite run_click. cbn [pending]. rewrite lookup_insert_eq.
    rewrite run_rejected. cbn [pending]. by rewrite lookup_delete_eq.
  - rewrite run_click. cbn [pending]. rewrite lookup_insert_eq.
    rewrite run_rejected. cbn [pending]. by rewrite lookup_delete_eq.
Qed.

(** ** The state of the controller *)

Lemma capturing_ext w w' :
  stream w' = stream w → tracks w' = tracks w → edges w' = edges w →
  capturing w' = capturing w.
Proof.
  intros Hs Ht He. unfold capturing, active, connected.
  by rewrite Hs, Ht, He.
Qed.

Lemma controller_state_Capturing w :
  controller_state w = Capturing ↔ capturing w = true.
Proof. unfold controller_state. by destruct (capturing w). Qed.

Lemma controller_state_Idle w :
  controller_state w = Idle ↔ capturing w = false.
Proof. unfold controller_state. by destruct (capturing w). Qed.

Lemma fresh_stream_tracks w more t :
  t ∈ getTracks (fresh_stream w more) ↔
  next_track w ≤ t < next_track w + S more.
Proof. unfold fresh_stream. cbn [getTracks]. apply elem_of_seq. Qed.

Lemma active_true w s :
  active w s = true ↔ ∃ t, t ∈ getTracks s ∧ tracks w !! t = Some Live.
Proof.
  unfold active. rewrite existsb_exists. split.
  - intros (t & Hin & Ht). exists t. split; [by apply list_elem_of_In|].
    by apply bool_decide_eq_true in Ht.
  - intros (t & Hin & Ht). exists t. split; [by apply list_elem_of_In|].
    by apply bool_decide_eq_true.
Qed.

(** A stream whose tracks have all been stopped is not active. *)
Lemma active_stopped w s :
  (∀ t, t ∈ getTracks s → tracks w !! t = Some Ended) → active w s = false.
Proof.
  intros Hall. destruct (active w s) eqn:Ha; [|done].
  apply active_true in Ha as (t & Hin & Ht).
  rewrite (Hall t Hin) in Ht. discriminate.
Qed.

Lemma connected_true w s :
  connected w s = true ↔
  ∃ c name, (MediaStreamSource c s, WorkletNode c name) ∈ edges w ∧
            (WorkletNode c name, Destination c) ∈ edges w.
Proof.
  unfold connected. rewrite existsb_exists. split.
  - intros ([a b] & Hin & Hm). apply list_elem_of_In in Hin.
    destruct a as [c s'| |]; try discriminate.
    destruct b as [|c' name|]; try discriminate.
    apply andb_true_iff in Hm as [Hm H3].
    apply andb_true_iff in Hm as [H1 H2].
    apply bool_decide_eq_true in H1, H2, H3. subst. by exists c, name.
  - intros (c & name & H1 & H2).
    exists (MediaStreamSource c s, WorkletNode c name).
    split; [by apply list_elem_of_In|].
    rewrite !bool_decide_eq_true_2 by done. done.
Qed.

(** After a Start that went through, the new stream is live and wired. *)
Lemma Start_granted_capturing more w :
  capturing (Start (granted more) w) = true.
Proof.
  rewrite Start_granted. unfold capturing. cbn [stream].
  apply andb_true_iff. split.
  - apply active_true. exists (next_track w). cbn [tracks]. split.
    + apply fresh_stream_tracks. lia.
    + apply start_tracks_in, fresh_stream_tracks. lia.
  - apply connected_true.
    exists (next_context w), "processor"%string. cbn [edges].
    rewrite !elem_of_app, !list_elem_of_singleton. by split; [left; right|right].
Qed.

(** After Stop the controller never counts as capturing. *)
Lemma Stop_not_capturing w : capturing (Stop w) = false.
Proof.
  destruct (stream w) as [s|] eqn:Hs.
  - rewrite (Stop_defined w s Hs). unfold capturing. cbn [stream].
    rewrite active_stopped; [done|].
    intros t Hin. cbn [tracks]. by apply stop_all_in.
  - by rewrite (Stop_undefined w Hs).
Qed.

(** ** C1 *)



(** ** C2 *)

(** The tracks that a Start opens are those of the stream it leaves in
    the variable: the ids from [next_track] before up to [next_track] after. *)
Lemma Start_granted_session more w :
  stream (Start (granted more) w) = Some (fresh_stream w more) ∧
  ∀ t, t ∈ getTracks (fresh_stream w more) ↔
       next_track w ≤ t < next_track (Start (granted more) w).
Proof.
  rewrite Start_granted. cbn [stream next_track]. split; [done|].
  intros t. apply fresh_stream_tracks.
Qed.

(** C2. For every Stop invoked while the state is Capturing, the
    controller goes to Idle and every track of the session, that is of the
    stream acquired by the Start that set the variable, is stopped. *)
Theorem stop_releases_session (w : World) :
  controller_state w = Capturing →
  ∃ s, stream w = Some s ∧
       controller_state (Stop w) = Idle ∧
       ∀ t, t ∈ getTracks s → tracks (Stop w) !! t = Some Ended.
Proof.
  intros Hc. apply controller_state_Capturing in Hc.
  unfold capturing in Hc. destruct (stream w) as [s|] eqn:Hs; [|discriminate].
  exists s. split; [done|]. split.
  - apply controller_state_Idle, Stop_not_capturing.
  - intros t Hin. rewrite (Stop_defined w s Hs). cbn [tracks].
    by apply stop_all_in.
Qed.

Lemma stop_releases_session_witness :
  controller_state (Start (granted 1) (initial true)) = Capturing ∧
  ∃ s, stream (Start (granted 1) (initial true)) = Some s ∧
       controller_state (Stop (Start (granted 1) (initial true))) = Idle ∧
       ∀ t, t ∈ getTracks s →
            tracks (Stop (Start (granted 1) (initial true))) !! t = Some Ended.
Proof.
  split; [reflexivity|].
  apply (stop_releases_session (Start (granted 1) (initial true))).
  reflexivity.
Defined.

(** ** C6 *)

(** A Start whose permission request is rejected leaves the variable, the
    button, the status sink, the tracks and the graph as they were. *)
Lemma Start_rejected_frame h w e :
  permission h = Rejected e →
  stream (Start h w) = stream w ∧
  stopDisabled (Start h w) = stopDisabled w ∧
  statusLog (Start h w) = statusLog w ∧
  tracks (Start h w) = tracks w ∧
  edges (Start h w) = edges w ∧
  reported (Start h w) = reported w ++ [UnhandledRejection e].
Proof. intros Hp. by rewrite (Start_rejected h w e Hp). Qed.

(** C6. For every Start in which the permission request is denied, the
    state is left at Idle and the stop control is left disabled. *)
Theorem start_denied_stays_idle (h : StartHost) (w : World) (e : Error) :
  permission h = Rejected e →
  controller_state w = Idle →
  stopDisabled w = true →
  controller_state (Start h w) = Idle ∧ stopDisabled (Start h w) = true.
Proof.
  intros Hp Hidle Hdis.
  destruct (Start_rejected_frame h w e Hp) as (Hs & Hd & _ & Ht & He & _).
  split; [|congruence].
  apply controller_state_Idle. apply controller_state_Idle in Hidle.
  by rewrite (capturing_ext w (Start h w)).
Qed.

Lemma start_denied_stays_idle_witness :
  let h := {| permission := Rejected NotAllowedError; context_ok := true;
              module := Loaded; registered := true |} in
  permission h = Rejected NotAllowedError ∧
  controller_state (initial true) = Idle ∧
  stopDisabled (initial true) = true ∧
  controller_state (Start h (initial true)) = Idle ∧
  stopDisabled (Start h (initial true)) = true.
Proof.
  intros h. split; [reflexivity|]. split; [reflexivity|].
  split; [reflexivity|].
  apply (start_denied_stays_idle h (initial true) NotAllowedError);
    reflexivity.
Defined.

(** ** C8 *)

(** C8. Start succeeds, then Stop: Start shows exactly the message
    "Your microphone audio is being used.", Stop shows exactly the message
    "Your microphone audio is not used anymore.", and the state is Idle at
    the end. On the page as loaded these two are all that was shown. *)
Theorem start_stop_scenario (more : nat) (w : World) :
  statusLog (Start (granted more) w) = statusLog w ++ [started_message] ∧
  statusLog (Stop (Start (granted more) w)) =
    statusLog (Start (granted more) w) ++ [stopped_message] ∧
  controller_state (Stop (Start (granted more) w)) = Idle ∧
  ∀ d, statusLog (Stop (Start (granted more) (initial d))) =
       [started_message; stopped_message].
Proof.
  destruct (Start_granted_session more w) as [Hs _].
  repeat split.
  - by rewrite Start_granted.
  - by rewrite (Stop_defined _ _ Hs).
  - apply controller_state_Idle, Stop_not_capturing.
  - intros d. destruct (Start_granted_session more (initial d)) as [Hd _].
    rewrite (Stop_defined _ _ Hd). cbn [statusLog].
    by rewrite Start_granted.
Qed.

(** ** C9 *)

(** C9. After one successful Start and a Stop, a second Stop raises
    nothing: the variable still holds the stopped stream, stopping its
    ended tracks again changes no track, and the stop message is shown
    once more. *)
Theorem second_stop_is_silent (more : nat) (w : World) :
  let w2 := Stop (Start (granted more) w) in
  stream w2 = Some (fresh_stream w more) ∧
  active w2 (fresh_stream w more) = false ∧
  reported (Stop w2) = reported w2 ∧
  tracks (Stop w2) = tracks w2 ∧
  statusLog (Stop w2) = statusLog w2 ++ [stopped_message].
Proof.
  intros w2. destruct (Start_granted_session more w) as [Hs _].
  assert (H2 : stream w2 = Some (fresh_stream w more)).
  { unfold w2. by rewrite (Stop_defined _ _ Hs). }
  split; [exact H2|]. split.
  - apply active_stopped. intros t Hin. unfold w2.
    rewrite (Stop_defined _ _ Hs). cbn [tracks]. by apply stop_all_in.
  - rewrite (Stop_defined _ _ H2). cbn [reported tracks statusLog].
    split; [done|]. split; [|done].
    unfold w2. rewrite (Stop_defined _ _ Hs). cbn [tracks].
    apply stop_all_twice.
Qed.

(** ** C10 *)

Lemma step_keeps_enabled ev w w' :
  step ev w = Some w' → stopDisabled w = false → stopDisabled w' = false.
Proof.
  intros Hstep Hen. destruct ev as [| |τ r ok|τ r reg]; cbn in Hstep.
  - injection Hstep as <-. by rewrite run_click.
  - injection Hstep as <-. fold (Stop w).
    destruct (stream w) as [s|] eqn:Hs.
    + by rewrite (Stop_defined _ _ Hs).
    + by rewrite (Stop_undefined _ Hs).
  - destruct (pending w !! τ) as [[|c src]|]; try discriminate.
    injection Hstep as <-. destruct r as [more|e]; [destruct ok|].
    + by rewrite run_granted.
    + by rewrite run_no_context.
    + by rewrite run_rejected.
  - destruct (pending w !! τ) as [[|c src]|]; try discriminate.
    injection Hstep as <-. destruct r as [|e]; [destruct reg|].
    + by rewrite run_loaded.
    + by rewrite run_unregistered.
    + by rewrite run_load_failed.
Qed.

Lemma Stop_keeps_button w : stopDisabled (Stop w) = stopDisabled w.
Proof.
  destruct (stream w) as [s|] eqn:Hs.
  - by rewrite (Stop_defined _ _ Hs).
  - by rewrite (Stop_undefined _ Hs).
Qed.

(** C10. Once the stop control is enabled no operation disables it
    again: along every run of the loop it stays enabled, and Stop in
    particular leaves it enabled while the state goes back to Idle. *)
Theorem stop_control_stays_enabled (evs : list Event) (w w' : World) :
  exec evs w = Some w' →
  stopDisabled w = false →
  stopDisabled w' = false ∧
  stopDisabled (Stop w') = false ∧ controller_state (Stop w') = Idle.
Proof.
  revert w. induction evs as [|ev evs IH]; intros w Hexec Hen; cbn in Hexec.
  - injection Hexec as <-. rewrite Stop_keeps_button.
    repeat split; try done. apply controller_state_Idle, Stop_not_capturing.
  - destruct (step ev w) as [w1|] eqn:Hstep; [|discriminate].
    apply (IH w1 Hexec). by apply (step_keeps_enabled ev w).
Qed.

Lemma stop_control_stays_enabled_witness :
  let w := Start (granted 0) (initial true) in
  exec [ClickStop] w = Some (Stop w) ∧
  stopDisabled w = false ∧
  stopDisabled (Stop w) = false ∧
  stopDisabled (Stop (Stop w)) = false ∧
  controller_state (Stop (Stop w)) = Idle.
Proof.
  intros w. split; [cbv [exec step Stop]; reflexivity|].
  split; [vm_compute; reflexivity|].
  apply (stop_control_stays_enabled [ClickStop] w (Stop w));
    [cbv [exec step Stop]; reflexivity|vm_compute; reflexivity].
Defined.

(** ** C3 *)

Lemma step_keeps_undefined ev w w' :
  step ev w = Some w' → no_grant [ev] = true →
  stream w = None → stream w' = None.
Proof.
  intros Hstep Hng Hs. destruct ev as [| |τ r ok|τ r reg]; cbn in Hstep.
  - injection Hstep as <-. by rewrite run_click.
  - injection Hstep as <-. fold (Stop w). by rewrite (Stop_undefined _ Hs).
  - destruct (pending w !! τ) as [[|c src]|]; try discriminate.
    injection Hstep as <-. destruct r as [more|e]; [discriminate|].
    by rewrite run_rejected.
  - destruct (pending w !! τ) as [[|c src]|]; try discriminate.
    injection Hstep as <-. destruct r as [|e]; [destruct reg|].
    + by rewrite run_loaded.
    + by rewrite run_unregistered.
    + by rewrite run_load_failed.
Qed.

(** As long as no permission request was granted the variable is
    undefined. *)
Lemma exec_keeps_undefined evs w w' :
  exec evs w = Some w' → no_grant evs = true →
  stream w = None → stream w' = None.
Proof.
  revert w. induction evs as [|ev evs IH]; intros w Hexec Hng Hs.
  - cbn in Hexec. by injection Hexec as <-.
  - cbn in Hexec. destruct (step ev w) as [w1|] eqn:Hstep; [|discriminate].
    cbn in Hng. apply andb_true_iff in Hng as [Hev Hng].
    apply (IH w1 Hexec Hng). apply (step_keeps_undefined ev w w1 Hstep); [|done].
    cbn. by rewrite Hev.
Qed.

(** The one Start so far failed when the module did not load, the state is
    Idle, and yet Stop raises nothing: it finds the stream that the failed
    Start left in the variable, stops it and shows its message. This is so
    whether the page starts with the stop button disabled or not. *)
Lemma stop_after_failed_start_is_silent :
  let h := {| permission := Granted 0; context_ok := true;
              module := LoadFailed AbortError; registered := true |} in
  let w := Start h (initial true) in
  let w' := Start h (initial false) in
  start_error h = Some AbortError ∧
  (controller_state w = Idle ∧
   reported (Stop w) = reported w ∧
   statusLog (Stop w) = statusLog w ++ [stopped_message]) ∧
  (controller_state w' = Idle ∧
   reported (Stop w') = reported w' ∧
   statusLog (Stop w') = statusLog w' ++ [stopped_message]).
Proof. vm_compute. repeat split. Qed.

(** C3, amended. Stop invoked while no permission request has been
    granted yet, so that the variable is still undefined, raises the
    reference error: the listener does not catch it, it reaches the host's
    default handler, and nothing else happens (no track is touched, no
    message is shown). *)
Theorem stop_before_any_grant_raises (d : bool) (evs : list Event)
    (w : World) :
  exec evs (initial d) = Some w →
  no_grant evs = true →
  stream w = None ∧
  reported (Stop w) = reported w ++ [UncaughtException TypeError] ∧
  statusLog (Stop w) = statusLog w ∧
  tracks (Stop w) = tracks w.
Proof.
  intros Hexec Hng.
  assert (Hs : stream w = None)
    by exact (exec_keeps_undefined evs (initial d) w Hexec Hng eq_refl).
  split; [exact Hs|]. by rewrite (Stop_undefined w Hs).
Qed.

Lemma stop_before_any_grant_raises_witness :
  let evs := [ClickStart; SettleGetUserMedia 0 (Rejected NotAllowedError) true] in
  let h := {| permission := Rejected NotAllowedError; context_ok := true;
              module := Loaded; registered := true |} in
  let w := Start h (initial true) in
  exec evs (initial true) = Some w ∧
  no_grant evs = true ∧
  stream w = None ∧
  reported (Stop w) = reported w ++ [UncaughtException TypeError] ∧
  statusLog (Stop w) = statusLog w ∧
  tracks (Stop w) = tracks w.
Proof.
  intros evs h w. split; [vm_compute; reflexivity|].
  split; [reflexivity|].
  apply (stop_before_any_grant_raises true evs w);
    [vm_compute; reflexivity|reflexivity].
Defined.

(** ** The graph only knows streams that were handed out *)

Lemma node_known_mono n n' a :
  n ≤ n' → node_known n a = true → node_known n' a = true.
Proof.
  intros Hle. destruct a as [c s| |]; cbn; try done.
  rewrite !forallb_forall. intros Hall t Hin.
  specialize (Hall t Hin). apply bool_decide_eq_true in Hall.
  apply bool_decide_eq_true. lia.
Qed.

Lemma node_known_fresh w more c :
  node_known (next_track w) (MediaStreamSource c (fresh_stream w more)) = false.
Proof.
  destruct (node_known _ _) eqn:Hk; [|done]. cbn in Hk.
  apply andb_true_iff in Hk as [Hk _].
  apply bool_decide_eq_true in Hk. lia.
Qed.

(** A stream that is just being handed out has no graph yet. *)
Lemma fresh_stream_not_connected w w' more :
  graph_known w = true → edges w' = edges w →
  connected w' (fresh_stream w more) = false.
Proof.
  intros Hk He. destruct (connected w' _) eqn:Hc; [|done].
  apply connected_true in Hc as (c & name & H1 & _). rewrite He in H1.
  unfold graph_known in Hk. rewrite forallb_forall in Hk.
  apply list_elem_of_In, Hk in H1. cbn [fst] in H1.
  by rewrite node_known_fresh in H1.
Qed.

Lemma graph_known_spec w :
  graph_known w = true ↔
  ∀ a b, (a, b) ∈ edges w → node_known (next_track w) a = true.
Proof.
  unfold graph_known. rewrite forallb_forall. split.
  - intros H a b Hin. by apply list_elem_of_In, H in Hin.
  - intros H [a b] Hin. apply list_elem_of_In in Hin. by apply (H a b).
Qed.

Lemma node_known_granted n more c :
  node_known (n + S more)
    (MediaStreamSource c {| getTracks := seq n (S more) |}) = true.
Proof.
  cbn [node_known getTracks]. apply forallb_forall. intros t Hin.
  apply list_elem_of_In, elem_of_seq in Hin.
  apply bool_decide_eq_true. lia.
Qed.

Lemma known_inv_initial d : known_inv (initial d).
Proof.
  split; [reflexivity|]. intros τ c src H. cbn in H.
  by rewrite lookup_empty in H.
Qed.

Lemma step_known ev w w' :
  step ev w = Some w' → known_inv w → known_inv w'.
Proof.
  intros Hstep [Hg Hp]. rewrite graph_known_spec in Hg.
  unfold known_inv. rewrite graph_known_spec.
  destruct ev as [| |τ r ok|τ r reg]; cbn in Hstep.
  - injection Hstep as <-. rewrite run_click.
    cbn [edges next_track pending]. split; [exact Hg|].
    intros τ' c src H. destruct (decide (next_task w = τ')) as [<-|Hne].
    + rewrite lookup_insert_eq in H. discriminate.
    + rewrite lookup_insert_ne in H by done. by apply (Hp τ' c src).
  - injection Hstep as <-. fold (Stop w).
    destruct (stream w) as [s|] eqn:Hs.
    + rewrite (Stop_defined _ _ Hs). cbn [edges next_track pending]. by split.
    + rewrite (Stop_undefined _ Hs). cbn [edges next_track pending]. by split.
  - destruct (pending w !! τ) as [[|c0 src0]|] eqn:Hτ; try discriminate.
    injection Hstep as <-. destruct r as [more|e]; [destruct ok|].
    + rewrite run_granted. cbn [edges next_track pending]. split.
      * intros a b Hin. apply (node_known_mono (next_track w)); [lia|].
        by apply (Hg a b).
      * intros τ' c src H. destruct (decide (τ = τ')) as [<-|Hne].
        -- rewrite lookup_insert_eq in H. injection H as <- <-.
           apply node_known_granted.
        -- rewrite lookup_insert_ne in H by done.
           apply (node_known_mono (next_track w)); [lia|].
           by apply (Hp τ' c src).
    + rewrite run_no_context. cbn [edges next_track pending]. split.
      * intros a b Hin. apply (node_known_mono (next_track w)); [lia|].
        by apply (Hg a b).
      * intros τ' c src H. apply lookup_delete_Some in H as [_ H].
        apply (node_known_mono (next_track w)); [lia|].
        by apply (Hp τ' c src).
    + rewrite run_rejected. cbn [edges next_track pending]. split; [exact Hg|].
      intros τ' c src H. apply lookup_delete_Some in H as [_ H].
      by apply (Hp τ' c src).
  - destruct (pending w !! τ) as [[|c0 src0]|] eqn:Hτ; try discriminate.
    injection Hstep as <-. destruct r as [|e]; [destruct reg|].
    + rewrite run_loaded. cbn [edges next_track pending]. split.
      * intros a b Hin. rewrite !elem_of_app, !list_elem_of_singleton in Hin.
        destruct Hin as [[Hin|Heq]|Heq].
        -- by apply (Hg a b).
        -- injection Heq as -> ->. by apply (Hp τ c0 src0).
        -- by injection Heq as -> ->.
      * intros τ' c src H. apply lookup_delete_Some in H as [_ H].
        by apply (Hp τ' c src).
    + rewrite run_unregistered. cbn [edges next_track pending].
      split; [exact Hg|].
      intros τ' c src H. apply lookup_delete_Some in H as [_ H].
      by apply (Hp τ' c src).
    + rewrite run_load_failed. cbn [edges next_track pending].
      split; [exact Hg|].
      intros τ' c src H. apply lookup_delete_Some in H as [_ H].
      by apply (Hp τ' c src).
Qed.

(** In every world the loop can reach from the page as loaded, the
    graph only knows streams that were handed out. *)
Lemma reachable_graph_known d evs w :
  exec evs (initial d) = Some w → graph_known w = true.
Proof.
  intros Hexec. cut (known_inv w); [by intros [H _]|].
  revert Hexec. generalize (known_inv_initial d). generalize (initial d).
  induction evs as [|ev evs IH]; intros w0 Hinv Hexec; cbn in Hexec.
  - by injection Hexec as <-.
  - destruct (step ev w0) as [w1|] eqn:Hstep; [|discriminate].
    apply (IH w1); [|done]. by apply (step_known ev w0).
Qed.

(** ** C4 *)


(** What a Start that fails after the grant leaves behind. *)
Lemma Start_failed_after_grant h w more e :
  permission h = Granted more → start_error h = Some e →
  stream (Start h w) = Some (fresh_stream w more) ∧
  tracks (Start h w) = start_tracks (getTracks (fresh_stream w more)) (tracks w) ∧
  stopDisabled (Start h w) = stopDisabled w ∧
  statusLog (Start h w) = statusLog w ∧
  edges (Start h w) = edges w ∧
  reported (Start h w) = reported w ++ [UnhandledRejection e].
Proof.
  intros Hp He. unfold start_error in He. rewrite Hp in He.
  destruct (context_ok h) eqn:Hc.
  - destruct (module h) as [|e'] eqn:Hm.
    + destruct (registered h) eqn:Hr; [discriminate|].
      injection He as <-. by rewrite (Start_unregistered h w more).
    + injection He as <-. by rewrite (Start_load_failed h w more e').
  - injection He as <-. by rewrite (Start_no_context h w more).
Qed.



(** ** C5 *)

Lemma step_leaked L ts ev w w' :
  (∀ t, t ∈ ts → t < L) →
  step ev w = Some w' → leaked L ts w → leaked L ts w'.
Proof.
  intros Hts Hstep (Hn & Hs & Hl). unfold leaked.
  destruct ev as [| |τ r ok|τ r reg]; cbn in Hstep.
  - injection Hstep as <-. rewrite run_click.
    cbn [next_track stream tracks]. done.
  - injection Hstep as <-. fold (Stop w).
    destruct (stream w) as [s|] eqn:Hw.
    + rewrite (Stop_defined _ _ Hw). cbn [next_track stream tracks].
      split; [done|]. split.
      * intros s' t Heq Hin. injection Heq as <-. by apply (Hs s t).
      * intros t Hin. rewrite stop_all_out; [by apply Hl|].
        intros Hin'. specialize (Hs s t eq_refl Hin').
        specialize (Hts t Hin). lia.
    + rewrite (Stop_undefined _ Hw). cbn [next_track stream tracks].
      split; [done|]. split; [intros s' t Heq; discriminate|done].
  - destruct (pending w !! τ) as [[|c0 src0]|] eqn:Hτ; try discriminate.
    injection Hstep as <-.
    assert (Hfresh : ∀ more s t,
      Some (fresh_stream w more) = Some s → t ∈ getTracks s → L ≤ t).
    { intros more s t Heq Hin. injection Heq as <-.
      apply fresh_stream_tracks in Hin. lia. }
    assert (Hlive : ∀ more t, t ∈ ts →
      start_tracks (getTracks (fresh_stream w more)) (tracks w) !! t
      = Some Live).
    { intros more t Hin.
      destruct (decide (t ∈ getTracks (fresh_stream w more))).
      - by apply start_tracks_in.
      - rewrite start_tracks_out by done. by apply Hl. }
    destruct r as [more|e]; [destruct ok|].
    + rewrite run_granted. cbn [next_track stream tracks].
      split; [lia|]. split; [apply Hfresh|apply Hlive].
    + rewrite run_no_context. cbn [next_track stream tracks].
      split; [lia|]. split; [apply Hfresh|apply Hlive].
    + rewrite run_rejected. cbn [next_track stream tracks]. done.
  - destruct (pending w !! τ) as [[|c0 src0]|] eqn:Hτ; try discriminate.
    injection Hstep as <-. destruct r as [|e]; [destruct reg|].
    + rewrite run_loaded. cbn [next_track stream tracks]. done.
    + rewrite run_unregistered. cbn [next_track stream tracks]. done.
    + rewrite run_load_failed. cbn [next_track stream tracks]. done.
Qed.

Lemma exec_leaked L ts evs w w' :
  (∀ t, t ∈ ts → t < L) →
  exec evs w = Some w' → leaked L ts w → leaked L ts w'.
Proof.
  intros Hts. revert w. induction evs as [|ev evs IH]; intros w Hexec Hl.
  - cbn in Hexec. by injection Hexec as <-.
  - cbn in Hexec. destruct (step ev w) as [w1|] eqn:Hstep; [|discriminate].
    apply (IH w1 Hexec). by apply (step_leaked L ts ev w).
Qed.

(** C5. Two successful Starts in a row, no Stop in between: nothing stops
    the second one, it runs to its end without an error and puts the stream
    of the new session in the variable in place of the first one, and the
    tracks of the first session are live then and stay live whatever the
    loop does afterwards. *)
Theorem second_start_leaks_first_session (more1 more2 : nat) (w : World) :
  let w1 := Start (granted more1) w in
  let w2 := Start (granted more2) w1 in
  let s1 := fresh_stream w more1 in
  let s2 := fresh_stream w1 more2 in
  stream w1 = Some s1 ∧
  stream w2 = Some s2 ∧
  s1 ≠ s2 ∧
  reported w2 = reported w ∧
  controller_state w2 = Capturing ∧
  ∀ evs w', exec evs w2 = Some w' →
            ∀ t, t ∈ getTracks s1 → tracks w' !! t = Some Live.
Proof.
  intros w1 w2 s1 s2.
  destruct (Start_granted_session more1 w) as [H1 _].
  destruct (Start_granted_session more2 w1) as [H2 _].
  assert (Hn1 : next_track w1 = next_track w + S more1).
  { unfold w1. by rewrite Start_granted. }
  assert (Hn2 : next_track w2 = next_track w1 + S more2).
  { unfold w2. by rewrite Start_granted. }
  split; [exact H1|]. split; [exact H2|]. split; [|split; [|split]].
  - intros Heq. apply (f_equal getTracks) in Heq.
    unfold s1, s2, fresh_stream in Heq. cbn [getTracks seq] in Heq.
    injection Heq as Heq _. lia.
  - unfold w2, w1. by rewrite !Start_granted.
  - apply controller_state_Capturing, Start_granted_capturing.
  - intros evs w' Hexec.
    assert (Hts : ∀ t, t ∈ getTracks s1 → t < next_track w1).
    { intros t Hin. apply fresh_stream_tracks in Hin. lia. }
    cut (leaked (next_track w1) (getTracks s1) w2).
    { intros Hl. by apply (exec_leaked _ _ evs w2 w' Hts Hexec) in Hl as (_ & _ & Hl). }
    split; [lia|]. split.
    + intros s t Hs Hin. fold w2 in H2. rewrite H2 in Hs. injection Hs as <-.
      apply fresh_stream_tracks in Hin. lia.
    + intros t Hin. unfold w2. rewrite Start_granted. cbn [tracks].
      rewrite start_tracks_out.
      * unfold w1. rewrite Start_granted. cbn [tracks].
        by apply start_tracks_in.
      * intros Hin'. apply fresh_stream_tracks in Hin'.
        specialize (Hts t Hin). lia.
Qed.

(** ** C7 *)

Lemma own_app τ h1 h2 : own τ (h1 ++ h2) = own τ h1 ++ own τ h2.
Proof.
  induction h1 as [|[τ' a] h1 IH]; cbn; [done|].
  destruct (decide (τ' = τ)); cbn; by rewrite IH.
Qed.

Lemma own_pairs τ τ' l :
  own τ (map (pair τ') l) = if decide (τ' = τ) then l else [].
Proof.
  induction l as [|a l IH]; cbn.
  - by destruct (decide (τ' = τ)).
  - destruct (decide (τ' = τ)); by rewrite IH.
Qed.

Lemma own_emits_same τ l h : own τ (emits τ l h) = own τ h ++ l.
Proof. rewrite emits_app, own_app, own_pairs. by rewrite decide_True. Qed.











(** The run of one Start that goes through, step by step. *)
Lemma Start_granted_history more d :
  task_history (Start (granted more) (initial d)) 0 =
  [GetUserMediaCalled; PermissionGranted; StreamAssigned; ContextCreated;
   SourceCreated; AddModuleCalled; ModuleLoaded; ProcessorCreated;
   SourceConnected; ProcessorConnected; StopEnabled; StatusLogged; Returned].
Proof.
  unfold task_history. rewrite Start_granted. cbn [history initial next_task].
  by rewrite !own_emits_same.
Qed.


(** * More about the script *)

(** ** Case analysis on one turn of the loop *)

Lemma exec_invariant (P : World → Prop) :
  (∀ ev w w', step ev w = Some w' → P w → P w') →
  ∀ evs w w', exec evs w = Some w' → P w → P w'.
Proof.
  intros Hstep evs. induction evs as [|ev evs IH]; intros w w' Hexec HP.
  - cbn in Hexec. by injection Hexec as <-.
  - cbn in Hexec. destruct (step ev w) as [w1|] eqn:H1; [|discriminate].
    apply (IH w1 w' Hexec). by apply (Hstep ev w).
Qed.

Lemma exec_app evs1 evs2 w :
  exec (evs1 ++ evs2) w = exec evs1 w ≫= exec evs2.
Proof.
  revert w. induction evs1 as [|ev evs1 IH]; intros w; cbn; [done|].
  destruct (step ev w) as [w1|]; [apply IH|done].
Qed.

(** Splits [H : step ev w = Some w'] into the ten ways a turn can go,
    with [w'] written out. *)
Ltac step_cases H :=
  let τ := fresh "τ" in
  match type of H with
  | step ?ev ?w = Some _ =>
      destruct ev as [| |τ [?more|?e] [|]|τ [|?e] [|]]; cbn [step] in H;
      [ injection H as <-; rewrite run_click
      | injection H as <-; fold (Stop w);
        let s := fresh "s" in let Hs := fresh "Hs" in
        destruct (stream w) as [s|] eqn:Hs;
        [ rewrite (Stop_defined w s Hs) | rewrite (Stop_undefined w Hs) ]
      | | | | | | | | ];
      try (let Hτ := fresh "Hτ" in
           destruct (pending w !! τ) as [[|?c ?src]|] eqn:Hτ;
           try discriminate H; injection H as <-;
           first [ rewrite run_granted | rewrite run_no_context
                 | rewrite run_rejected | rewrite run_loaded
                 | rewrite run_unregistered | rewrite run_load_failed ]);
      cbn [stream stopDisabled statusLog tracks next_track next_context
           edges pending next_task current history reported
           set_next_task]
  end.

Lemma step_keeps_defined ev w w' :
  step ev w = Some w' → is_Some (stream w) → is_Some (stream w').
Proof. intros H Hs. step_cases H; try done; by eexists. Qed.

(** ** The stop button as a guard *)

Lemma gate_inv_initial : gate_inv (initial true).
Proof.
  split; [discriminate|]. intros τ c src H. cbn in H.
  by rewrite lookup_empty in H.
Qed.

Lemma step_gate_inv ev w w' : step ev w = Some w' → gate_inv w → gate_inv w'.
Proof.
  intros H [Hen Hp]. unfold gate_inv. step_cases H.
  all: try (split; [intros _; by eexists|intros; by eexists]).
  - split; [exact Hen|]. intros τ' c src H.
    destruct (decide (next_task w = τ')) as [Heq|Hne].
    + subst τ'. rewrite lookup_insert_eq in H. discriminate.
    + rewrite lookup_insert_ne in H by done. by apply (Hp τ' c src).
  - by split.
  - split; [exact Hen|]. intros τ' c src H.
    apply lookup_delete_Some in H as [_ H]. by apply (Hp τ' c src).
  - split; [exact Hen|]. intros τ' c src H.
    apply lookup_delete_Some in H as [_ H]. by apply (Hp τ' c src).
  - pose proof (Hp τ c src Hτ) as Hdef. split; [done|].
    intros τ' c' src' H. apply lookup_delete_Some in H as [_ H].
    by apply (Hp τ' c' src').
  - split; [exact Hen|]. intros τ' c' src' H.
    apply lookup_delete_Some in H as [_ H]. by apply (Hp τ' c' src').
  - split; [exact Hen|]. intros τ' c' src' H.
    apply lookup_delete_Some in H as [_ H]. by apply (Hp τ' c' src').
  - split; [exact Hen|]. intros τ' c' src' H.
    apply lookup_delete_Some in H as [_ H]. by apply (Hp τ' c' src').
Qed.

(** On a page that loads with the stop button disabled, the button is
    only ever enabled while the variable holds a stream, whatever the order
    of clicks and settled promises: a click that the button lets through
    raises nothing. *)
Theorem enabled_stop_never_throws (evs : list Event) (w : World) :
  exec evs (initial true) = Some w →
  stopDisabled w = false →
  is_Some (stream w) ∧ reported (Stop w) = reported w.
Proof.
  intros Hexec Hen.
  pose proof (exec_invariant gate_inv step_gate_inv evs _ _ Hexec
                gate_inv_initial) as [Hg _].
  destruct (Hg Hen) as [s Hs]. split; [by exists s|].
  by rewrite (Stop_defined w s Hs).
Qed.

Lemma enabled_stop_never_throws_witness :
  let evs := [ClickStart; SettleGetUserMedia 0 (Granted 0) true;
              SettleAddModule 0 Loaded true] in
  let w := Start (granted 0) (initial true) in
  exec evs (initial true) = Some w ∧
  stopDisabled w = false ∧
  is_Some (stream w) ∧ reported (Stop w) = reported w.
Proof.
  intros evs w. split; [vm_compute; reflexivity|].
  split; [reflexivity|].
  apply (enabled_stop_never_throws evs w); vm_compute; reflexivity.
Defined.

(** ** No reference error after the first grant *)

Lemma uncaught_app rs1 rs2 : uncaught (rs1 ++ rs2) = uncaught rs1 ++ uncaught rs2.
Proof. apply omap_app. Qed.

Lemma step_no_uncaught ev w w' :
  step ev w = Some w' → is_Some (stream w) →
  uncaught (reported w') = uncaught (reported w).
Proof.
  intros H [s0 Hs0]. step_cases H; try done;
    try (rewrite uncaught_app; cbn; by rewrite app_nil_r).
Qed.

(** The reference error of Stop belongs to the time before the first
    grant: once the variable holds a stream, no run of the loop, however
    long, lets another exception escape a synchronous listener. *)
Theorem no_uncaught_exception_once_defined (evs : list Event) (w w' : World) :
  exec evs w = Some w' →
  is_Some (stream w) →
  is_Some (stream w') ∧ uncaught (reported w') = uncaught (reported w).
Proof.
  revert w. induction evs as [|ev evs IH]; intros w Hexec Hs.
  - cbn in Hexec. by injection Hexec as <-.
  - cbn in Hexec. destruct (step ev w) as [w1|] eqn:H1; [|discriminate].
    destruct (IH w1 Hexec (step_keeps_defined ev w w1 H1 Hs)) as [Hd Hu].
    split; [exact Hd|]. rewrite Hu. by apply (step_no_uncaught ev w).
Qed.

Lemma no_uncaught_exception_once_defined_witness :
  let h := {| permission := Granted 0; context_ok := true;
              module := LoadFailed AbortError; registered := true |} in
  let w := Start h (initial false) in
  let evs := [ClickStop; ClickStart;
              SettleGetUserMedia 1 (Rejected NotFoundError) true; ClickStop] in
  ∃ w', exec evs w = Some w' ∧ is_Some (stream w) ∧
        is_Some (stream w') ∧ uncaught (reported w') = uncaught (reported w).
Proof.
  intros h w evs.
  exists (Stop (Start {| permission := Rejected NotFoundError;
                         context_ok := true; module := Loaded;
                         registered := true |} (Stop w))).
  split; [vm_compute; reflexivity|]. split; [vm_compute; by eexists|].
  apply (no_uncaught_exception_once_defined evs w);
    [vm_compute; reflexivity|vm_compute; by eexists].
Defined.

(** ** The track store along a run *)

Lemma store_inv_initial d : store_inv (initial d).
Proof.
  split.
  - intros t st H. cbn in H. by rewrite lookup_empty in H.
  - intros s H. discriminate.
Qed.

Lemma store_inv_granted w more :
  store_inv w →
  (∀ t st, start_tracks (getTracks (fresh_stream w more)) (tracks w) !! t
           = Some st → t < next_track w + S more) ∧
  (∀ s, Some (fresh_stream w more) = Some s →
        ∃ more', S more' ≤ next_track w + S more ∧
                 getTracks s = seq (next_track w + S more - S more') (S more')).
Proof.
  intros [Hk _]. split.
  - intros t st H.
    destruct (decide (t ∈ getTracks (fresh_stream w more))) as [Hin|Hout].
    + apply fresh_stream_tracks in Hin. lia.
    + rewrite start_tracks_out in H by done. apply Hk in H. lia.
  - intros s [= <-]. exists more. split; [lia|].
    unfold fresh_stream. cbn [getTracks]. f_equal. lia.
Qed.

Lemma step_store_inv ev w w' : step ev w = Some w' → store_inv w → store_inv w'.
Proof.
  intros H Hinv. pose proof Hinv as [Hk Hv]. unfold store_inv.
  step_cases H; try done; try (by apply store_inv_granted).
  split; [|done]. intros t st H.
  rewrite stop_all_lookup in H. destruct (decide (t ∈ getTracks s)) as [Hin|].
  - destruct (Hv s eq_refl) as (more & Hle & Hts). rewrite Hts in Hin.
    apply elem_of_seq in Hin. lia.
  - by apply (Hk t st).
Qed.

Lemma reachable_store_inv d evs w :
  exec evs (initial d) = Some w → store_inv w.
Proof.
  intros Hexec.
  exact (exec_invariant store_inv step_store_inv evs _ _ Hexec
           (store_inv_initial d)).
Qed.

Lemma step_keeps_ended t ev w w' :
  step ev w = Some w' → store_inv w →
  tracks w !! t = Some Ended → tracks w' !! t = Some Ended.
Proof.
  intros H [Hk _] Ht. pose proof (Hk t Ended Ht) as Hlt.
  step_cases H; try done.
  - rewrite stop_all_lookup. by destruct (decide (t ∈ getTracks s)).
  - rewrite start_tracks_out; [done|].
    intros Hin. apply fresh_stream_tracks in Hin. lia.
  - rewrite start_tracks_out; [done|].
    intros Hin. apply fresh_stream_tracks in Hin. lia.
Qed.

(** A track that has been stopped stays stopped: along every run from the
    page as loaded, no later click or settled promise brings an ended track
    back to life, and a new grant never reuses it. *)
Theorem ended_tracks_stay_ended (d : bool) (evs0 evs : list Event)
    (w w' : World) (t : TrackId) :
  exec evs0 (initial d) = Some w →
  exec evs w = Some w' →
  tracks w !! t = Some Ended →
  tracks w' !! t = Some Ended.
Proof.
  intros H0 Hexec Ht. apply reachable_store_inv in H0.
  cut (store_inv w' ∧ tracks w' !! t = Some Ended); [by intros [_ ?]|].
  apply (exec_invariant (λ x, store_inv x ∧ tracks x !! t = Some Ended))
    with (evs := evs) (w := w); [|done|done].
  intros ev x x' Hstep [Hinv Hx]. split.
  - by apply (step_store_inv ev x).
  - by apply (step_keeps_ended t ev x).
Qed.

Lemma ended_tracks_stay_ended_witness :
  let evs0 := [ClickStart; SettleGetUserMedia 0 (Granted 0) true;
               SettleAddModule 0 Loaded true; ClickStop] in
  let w := Stop (Start (granted 0) (initial true)) in
  let w' := Start (granted 0) w in
  exec evs0 (initial true) = Some w ∧
  exec (Start_events (granted 0) 1) w = Some w' ∧
  tracks w !! 0 = Some Ended ∧
  tracks w' !! 0 = Some Ended.
Proof.
  intros evs0 w w'. split; [vm_compute; reflexivity|].
  split; [vm_compute; reflexivity|]. split; [vm_compute; reflexivity|].
  apply (ended_tracks_stay_ended true evs0 (Start_events (granted 0) 1) w w' 0);
    vm_compute; reflexivity.
Defined.

(** ** Only the newest stream can be stopped *)

(** In every world the loop reaches, the variable holds the stream of the
    most recent grant, and Stop reaches tracks only through the variable:
    a live track of any earlier grant stays live along every later run. *)
Theorem older_streams_are_never_stopped (d : bool) (evs0 : list Event)
    (w : World) (s : MediaStream) :
  exec evs0 (initial d) = Some w →
  stream w = Some s →
  (∀ t, t ∈ getTracks s ↔
        next_track w - length (getTracks s) ≤ t < next_track w) ∧
  ∀ t evs w', t ∉ getTracks s → tracks w !! t = Some Live →
              exec evs w = Some w' → tracks w' !! t = Some Live.
Proof.
  intros H0 Hs. apply reachable_store_inv in H0 as [Hk Hv].
  destruct (Hv s Hs) as (more & Hle & Hts). split.
  - intros t. rewrite Hts, length_seq, elem_of_seq. lia.
  - intros t evs w' Hout Hlive Hexec.
    pose proof (Hk t Live Hlive) as Hlt.
    assert (Hlow : t < next_track w - S more).
    { rewrite Hts, elem_of_seq in Hout. lia. }
    assert (Hl : leaked (next_track w - S more) [t] w).
    { split; [lia|]. split.
      - intros s' t' Hs' Hin. rewrite Hs in Hs'. injection Hs' as <-.
        rewrite Hts in Hin. apply elem_of_seq in Hin. lia.
      - intros t' Hin. by apply list_elem_of_singleton in Hin as ->. }
    apply (exec_leaked _ _ evs w w') in Hl as (_ & _ & Hl); [|intros t' Hin|done].
    + apply Hl, list_elem_of_singleton. done.
    + by apply list_elem_of_singleton in Hin as ->.
Qed.

Lemma older_streams_are_never_stopped_witness :
  let evs0 := Start_events (granted 0) 0 ++ Start_events (granted 0) 1 in
  let w := Start (granted 0) (Start (granted 0) (initial true)) in
  let s := {| getTracks := [1] |} in
  exec evs0 (initial true) = Some w ∧
  stream w = Some s ∧
  (∀ t, t ∈ getTracks s ↔
        next_track w - length (getTracks s) ≤ t < next_track w) ∧
  ∀ t evs w', t ∉ getTracks s → tracks w !! t = Some Live →
              exec evs w = Some w' → tracks w' !! t = Some Live.
Proof.
  intros evs0 w s. split; [vm_compute; reflexivity|].
  split; [vm_compute; reflexivity|].
  apply (older_streams_are_never_stopped true evs0 w s);
    vm_compute; reflexivity.
Defined.

(** ** A Start that fails while a session is capturing *)

(** A second Start that is granted but then fails (no context, module not
    loaded, processor not registered) while a session is capturing takes
    the variable away from that session: the state falls to Idle although
    the session's stream is as active as before, its tracks are untouched
    and the stop button stays as it was. *)
Theorem failed_restart_drops_session (d : bool) (evs : list Event)
    (h : StartHost) (w : World) (s : MediaStream) (more : nat) (e : Error) :
  exec evs (initial d) = Some w →
  controller_state w = Capturing →
  stream w = Some s →
  permission h = Granted more →
  start_error h = Some e →
  controller_state (Start h w) = Idle ∧
  stream (Start h w) = Some (fresh_stream w more) ∧
  fresh_stream w more ≠ s ∧
  active (Start h w) s = true ∧
  (∀ t, t ∈ getTracks s → tracks (Start h w) !! t = tracks w !! t) ∧
  stopDisabled (Start h w) = stopDisabled w.
Proof.
  intros Hexec Hcap Hs Hp He.
  pose proof (reachable_graph_known d evs w Hexec) as Hk.
  pose proof (reachable_store_inv d evs w Hexec) as [_ Hv].
  destruct (Hv s Hs) as (m & Hle & Hts).
  destruct (Start_failed_after_grant h w more e Hp He)
    as (Hs' & Ht' & Hd' & _ & Hg' & _).
  assert (Hold : ∀ t, t ∈ getTracks s →
                      tracks (Start h w) !! t = tracks w !! t).
  { intros t Hin. rewrite Ht'. apply start_tracks_out. intros Hin'.
    apply fresh_stream_tracks in Hin'.
    rewrite Hts in Hin. apply elem_of_seq in Hin. lia. }
  apply controller_state_Capturing in Hcap. unfold capturing in Hcap.
  rewrite Hs in Hcap. apply andb_true_iff in Hcap as [Hact _].
  repeat split; try done.
  - apply controller_state_Idle. unfold capturing. rewrite Hs'.
    rewrite (fresh_stream_not_connected w (Start h w) more Hk Hg').
    apply andb_false_r.
  - intros Heq. apply (f_equal getTracks) in Heq.
    rewrite Hts in Heq. unfold fresh_stream in Heq. cbn [getTracks seq] in Heq.
    injection Heq as Heq _. lia.
  - apply active_true in Hact as (t & Hin & Hlive).
    apply active_true. exists t. split; [done|]. by rewrite Hold.
Qed.

Lemma failed_restart_drops_session_witness :
  let h := {| permission := Granted 0; context_ok := true;
              module := LoadFailed AbortError; registered := true |} in
  let evs := Start_events (granted 0) 0 in
  let w := Start (granted 0) (initial true) in
  let s := {| getTracks := [0] |} in
  exec evs (initial true) = Some w ∧
  controller_state w = Capturing ∧
  stream w = Some s ∧
  permission h = Granted 0 ∧
  start_error h = Some AbortError ∧
  controller_state (Start h w) = Idle ∧
  stream (Start h w) = Some (fresh_stream w 0) ∧
  fresh_stream w 0 ≠ s ∧
  active (Start h w) s = true ∧
  (∀ t, t ∈ getTracks s → tracks (Start h w) !! t = tracks w !! t) ∧
  stopDisabled (Start h w) = stopDisabled w.
Proof.
  intros h evs w s. split; [vm_compute; reflexivity|].
  split; [vm_compute; reflexivity|]. split; [vm_compute; reflexivity|].
  split; [reflexivity|]. split; [reflexivity|].
  apply (failed_restart_drops_session true evs h w s 0 AbortError);
    vm_compute; reflexivity.
Defined.

(** ** The graph is never torn down *)

Lemma step_edges_grow ev w w' :
  step ev w = Some w' → edges w `prefix_of` edges w'.
Proof.
  intros H. step_cases H; try done.
  rewrite <- app_assoc. by eexists.
Qed.

(** Nothing in the script disconnects a node or closes a context: along
    every run the connections made so far are kept, in their order, so the
    graph of a stream that was connected once stays connected, also after
    Stop has ended the stream's tracks. *)
Theorem graph_is_never_torn_down (evs : list Event) (w w' : World) :
  exec evs w = Some w' →
  edges w `prefix_of` edges w' ∧
  ∀ s, connected w s = true → connected w' s = true.
Proof.
  intros Hexec.
  assert (Hpre : edges w `prefix_of` edges w').
  { revert w Hexec. induction evs as [|ev evs IH]; intros w Hexec.
    - cbn in Hexec. by injection Hexec as <-.
    - cbn in Hexec. destruct (step ev w) as [w1|] eqn:H1; [|discriminate].
      etrans; [by apply (step_edges_grow ev w w1)|by apply IH]. }
  split; [exact Hpre|]. intros s Hc. destruct Hpre as [k Hk].
  apply connected_true in Hc as (c & name & H1 & H2).
  apply connected_true. exists c, name. rewrite Hk, !elem_of_app. by split; left.
Qed.

Lemma graph_is_never_torn_down_witness :
  let w := Start (granted 0) (initial true) in
  exec [ClickStop] w = Some (Stop w) ∧
  edges w `prefix_of` edges (Stop w) ∧
  ∀ s, connected w s = true → connected (Stop w) s = true.
Proof.
  intros w. split; [cbv [exec step Stop]; reflexivity|].
  apply (graph_is_never_torn_down [ClickStop] w (Stop w)).
  cbv [exec step Stop]; reflexivity.
Defined.

(** ** What the page shows *)

Lemma shown_app m l1 l2 : shown m (l1 ++ l2) = shown m l1 + shown m l2.
Proof. unfold shown. by rewrite filter_app, length_app. Qed.

Lemma returned_runs_emits τ l h :
  returned_runs (emits τ l h) =
  returned_runs h + length (filter (λ a, a = Returned) l).
Proof.
  rewrite emits_app. unfold returned_runs. rewrite filter_app, length_app.
  f_equal. induction l as [|a l IH]; [done|].
  cbn [map]. rewrite !filter_cons. cbn [snd].
  destruct (decide (a = Returned)); cbn [length]; by rewrite IH.
Qed.

Lemma step_shown d ev w w' :
  step ev w = Some w' →
  shown started_message (statusLog w) = returned_runs (history w) ∧
  stopDisabled w = d && bool_decide (returned_runs (history w) = 0) →
  shown started_message (statusLog w') = returned_runs (history w') ∧
  stopDisabled w' = d && bool_decide (returned_runs (history w') = 0).
Proof.
  intros H [Hn Hd].
  step_cases H; rewrite ?returned_runs_emits, ?shown_app;
    try match goal with src : AudioNode |- _ => destruct src end;
    cbn [connect_action];
    try match goal with
        | |- context [length (filter ?P ?l)] =>
            let n := eval vm_compute in (length (filter P l)) in
            change (length (filter P l)) with n
        end;
    try match goal with
        | |- context [shown ?m [?x]] =>
            let n := eval vm_compute in (shown m [x]) in
            change (shown m [x]) with n
        end;
    rewrite ?Nat.add_0_r; try done.
  all: split; [by rewrite Hn|].
  all: rewrite bool_decide_eq_false_2 by lia; by rewrite andb_false_r.
Qed.

(** The message "Your microphone audio is being used." is shown once for
    each run of the start listener that has returned, no more and no less,
    and the stop button is disabled exactly if the page loaded with it
    disabled and no run has returned yet. *)
Theorem started_message_counts_returned_runs (d : bool) (evs : list Event)
    (w : World) :
  exec evs (initial d) = Some w →
  shown started_message (statusLog w) = returned_runs (history w) ∧
  stopDisabled w = d && bool_decide (returned_runs (history w) = 0).
Proof.
  intros Hexec.
  apply (exec_invariant _ (step_shown d) evs _ _ Hexec).
  cbn. by rewrite andb_true_r.
Qed.

Lemma started_message_counts_returned_runs_witness :
  let evs := Start_events (granted 0) 0 ++ [ClickStop] ++
             Start_events (granted 1) 1 in
  let w := Start (granted 1) (Stop (Start (granted 0) (initial true))) in
  exec evs (initial true) = Some w ∧
  shown started_message (statusLog w) = returned_runs (history w) ∧
  stopDisabled w = true && bool_decide (returned_runs (history w) = 0).
Proof.
  intros evs w. split; [vm_compute; reflexivity|].
  apply (started_message_counts_returned_runs true evs w).
  vm_compute; reflexivity.
Defined.

(** ** A click on stop while the module is loading *)

(** Stop is clicked after the grant and before the module has loaded. The
    click ends the tracks of the new stream; the start listener then goes
    on as if nothing had happened: it connects the graph, enables the stop
    button and shows "Your microphone audio is being used." as the last
    message, over a stream whose tracks have all ended. *)
Theorem stop_while_module_loads (more : nat) (w : World) :
  ∃ w', exec (stop_while_loading (next_task w) more) w = Some w' ∧
        statusLog w' = statusLog w ++ [stopped_message; started_message] ∧
        stopDisabled w' = false ∧
        stream w' = Some (fresh_stream w more) ∧
        (∀ t, t ∈ getTracks (fresh_stream w more) →
              tracks w' !! t = Some Ended) ∧
        connected w' (fresh_stream w more) = true ∧
        controller_state w' = Idle ∧
        reported w' = reported w.
Proof.
  unfold stop_while_loading. cbn [exec step].
  rewrite run_click. cbn [pending]. rewrite lookup_insert_eq.
  rewrite run_granted. cbn zeta.
  match goal with
  | |- context [run_sync stopMicrophoneButton_click ?x] =>
      fold (Stop x); rewrite (Stop_defined x (fresh_stream w more) eq_refl)
  end.
  cbn [pending stream stopDisabled statusLog tracks next_track next_context
       edges next_task current history reported set_next_task].
  rewrite lookup_insert_eq. rewrite run_loaded.
  cbn [pending stream stopDisabled statusLog tracks next_track next_context
       edges next_task current history reported].
  eexists. split; [reflexivity|].
  cbn [pending stream stopDisabled statusLog tracks next_track next_context
       edges next_task current history reported].
  split; [by rewrite <- app_assoc|]. split; [done|]. split; [done|].
  assert (Hend : ∀ t, t ∈ getTracks (fresh_stream w more) →
    stop_all (getTracks (fresh_stream w more))
      (start_tracks (getTracks (fresh_stream w more)) (tracks w)) !! t
    = Some Ended) by (intros t Hin; by apply stop_all_in).
  split; [exact Hend|]. split; [|split; [|done]].
  - apply connected_true. exists (next_context w), "processor"%string.
    cbn [edges]. rewrite !elem_of_app, !list_elem_of_singleton.
    by split; [left; right|right].
  - apply controller_state_Idle. unfold capturing. cbn [stream].
    rewrite active_stopped; [done|]. exact Hend.
Qed.

(** ** Start and Stop in turn *)

Lemma cycles_snoc ms more w :
  cycles (ms ++ [more]) w = Stop (Start (granted more) (cycles ms w)).
Proof. unfold cycles. by rewrite foldl_app. Qed.

Lemma cycle_spec more w :
  let w' := Stop (Start (granted more) w) in
  tracks w' = stop_all (getTracks (fresh_stream w more))
                (start_tracks (getTracks (fresh_stream w more)) (tracks w)) ∧
  next_track w' = next_track w + S more ∧
  statusLog w' = statusLog w ++ [started_message; stopped_message] ∧
  reported w' = reported w ∧
  stopDisabled w' = false.
Proof.
  intros w'. unfold w'.
  destruct (Start_granted_session more w) as [Hs _].
  rewrite (Stop_defined _ _ Hs), Start_granted.
  cbn [tracks next_track statusLog reported stopDisabled].
  by rewrite <- app_assoc.
Qed.

(** When every Start is followed by a Stop before the next Start, nothing
    leaks: after any number of such rounds every track that was ever handed
    out has ended, no error was reported, the state is Idle, and the page
    has shown the two messages in turn, once per round. *)
Theorem start_stop_rounds_leave_no_live_track (d : bool) (ms : list nat) :
  let w := cycles ms (initial d) in
  (∀ t, t < next_track w → tracks w !! t = Some Ended) ∧
  next_track w = sum_list_with S ms ∧
  reported w = [] ∧
  controller_state w = Idle ∧
  statusLog w = ms ≫= (λ _, [started_message; stopped_message]).
Proof.
  induction ms as [|more ms IH] using rev_ind.
  - cbn. repeat split; try done. intros t Ht. lia.
  - cbn zeta in *. rewrite cycles_snoc.
    destruct IH as (Ht & Hn & Hr & _ & Hl).
    destruct (cycle_spec more (cycles ms (initial d)))
      as (Ht' & Hn' & Hl' & Hr' & _).
    split; [|split; [|split; [|split]]].
    + intros t Hlt. rewrite Ht', stop_all_lookup.
      destruct (decide (t ∈ getTracks _)) as [|Hout]; [done|].
      rewrite start_tracks_out by done. apply Ht.
      rewrite fresh_stream_tracks in Hout. lia.
    + rewrite Hn', Hn, sum_list_with_app. cbn. lia.
    + by rewrite Hr'.
    + apply controller_state_Idle, Stop_not_capturing.
    + by rewrite Hl', Hl, bind_app.
Qed.

(** ** Every error reaches the host once *)

Lemma rejections_app rs1 rs2 :
  rejections (rs1 ++ rs2) = rejections rs1 ++ rejections rs2.
Proof. apply omap_app. Qed.

Lemma threw_runs_emits τ l h :
  threw_runs (emits τ l h) = threw_runs h + length (filter (λ a, a = Threw) l).
Proof.
  rewrite emits_app. unfold threw_runs. rewrite filter_app, length_app.
  f_equal. induction l as [|a l IH]; [done|].
  cbn [map]. rewrite !filter_cons. cbn [snd].
  destruct (decide (a = Threw)); cbn [length]; by rewrite IH.
Qed.

Lemma step_reports ev w w' :
  step ev w = Some w' →
  length (rejections (reported w)) = threw_runs (history w) ∧
  Forall (λ e, e = TypeError) (uncaught (reported w)) →
  length (rejections (reported w')) = threw_runs (history w') ∧
  Forall (λ e, e = TypeError) (uncaught (reported w')).
Proof.
  intros H [Hn Hu].
  step_cases H;
    rewrite ?threw_runs_emits, ?rejections_app, ?uncaught_app, ?length_app;
    try match goal with src : AudioNode |- _ => destruct src end;
    cbn [connect_action rejections uncaught omap length];
    try match goal with
        | |- context [length (filter ?P ?l)] =>
            let n := eval vm_compute in (length (filter P l)) in
            change (length (filter P l)) with n
        end;
    rewrite ?Nat.add_0_r, ?app_nil_r; try done.
  all: split; [cbn; lia|try done].
  apply Forall_app. split; [done|]. by constructor.
Qed.

(** No error is swallowed and none is reported twice: every run of the
    start listener that ends in an exception leaves exactly one unhandled
    rejection with the host, and the only exception that ever escapes the
    stop listener is the reference error. *)
Theorem every_failed_run_is_reported_once (d : bool) (evs : list Event)
    (w : World) :
  exec evs (initial d) = Some w →
  length (rejections (reported w)) = threw_runs (history w) ∧
  Forall (λ e, e = TypeError) (uncaught (reported w)).
Proof.
  intros Hexec.
  apply (exec_invariant _ step_reports evs _ _ Hexec).
  split; [done|]. constructor.
Qed.

Lemma every_failed_run_is_reported_once_witness :
  let evs := [ClickStop; ClickStart;
              SettleGetUserMedia 0 (Rejected NotAllowedError) true;
              ClickStart; SettleGetUserMedia 1 (Granted 0) true;
              SettleAddModule 1 Loaded false] in
  ∃ w, exec evs (initial false) = Some w ∧
       length (rejections (reported w)) = threw_runs (history w) ∧
       Forall (λ e, e = TypeError) (uncaught (reported w)).
Proof.
  intros evs.
  destruct (exec evs (initial false)) as [w|] eqn:Hexec;
    [|vm_compute in Hexec; discriminate].
  exists w. split; [reflexivity|].
  exact (every_failed_run_is_reported_once false evs w Hexec).
Defined.

(** * The lazy-loading snippets *)

Module LazyLoadFacts.
Import LazyLoad.

Lemma select_from_spec sel doc n i :
  i ∈ select_from n sel doc ↔
  ∃ e, n ≤ i ∧ doc !! (i - n) = Some e ∧ sel e = true.
Proof.
  revert n. induction doc as [|e doc IH]; intros n; cbn [select_from].
  - split; [by intros ?%not_elem_of_nil|]. by intros (e & _ & ? & _).
  - assert (Hrec : i ∈ select_from (S n) sel doc ↔
      ∃ e', n ≤ i ∧ (e :: doc) !! (i - n) = Some e' ∧ sel e' = true ∧ i ≠ n).
    { rewrite IH. split.
      - intros (e' & Hle & Hl & Hs). exists e'. split; [lia|].
        replace (i - n) with (S (i - S n)) by lia. repeat split; try done. lia.
      - intros (e' & Hle & Hl & Hs & Hne). exists e'. split; [lia|].
        replace (i - n) with (S (i - S n)) in Hl by lia. by split. }
    destruct (sel e) eqn:He.
    + rewrite elem_of_cons, Hrec. split.
      * intros [->|(e' & ? & ? & ? & _)]; [|by exists e'].
        exists e. rewrite Nat.sub_diag. by repeat split.
      * intros (e' & Hle & Hl & Hs).
        destruct (decide (i = n)) as [->|Hne]; [by left|right].
        by exists e'.
    + rewrite Hrec. split.
      * intros (e' & ? & ? & ? & _). by exists e'.
      * intros (e' & Hle & Hl & Hs). exists e'. repeat split; try done.
        intros ->. rewrite Nat.sub_diag in Hl. cbn in Hl. congruence.
Qed.

Lemma querySelectorAll_spec sel doc i :
  i ∈ querySelectorAll sel doc ↔ ∃ e, doc !! i = Some e ∧ sel e = true.
Proof.
  unfold querySelectorAll. rewrite select_from_spec. rewrite Nat.sub_0_r.
  split; [intros (e & _ & ?); by exists e|].
  intros (e & ?). exists e. split; [lia|done].
Qed.

Lemma alter_alter {A} (f g : A → A) i (l : list A) :
  alter f i (alter g i l) = alter (f ∘ g) i l.
Proof.
  apply list_eq. intros j. destruct (decide (i = j)) as [->|Hne].
  - rewrite !list_lookup_alter_eq. by destruct (l !! j).
  - by rewrite !list_lookup_alter_ne.
Qed.

(** The image callback is the three assignments on the target, then
    [unobserve]. *)
Lemma lazyImageObserver_callback_reveal entries p :
  lazyImageObserver_callback entries p = reveal_callback load_image entries p.
Proof.
  unfold lazyImageObserver_callback, reveal_callback.
  revert p. induction entries as [|entry entries IH]; intros p; [done|].
  cbn [foldl]. rewrite IH. f_equal.
  unfold lazyImageObserver_entry, reveal_entry.
  destruct (isIntersecting entry); [|done].
  unfold on_element, unobserve. cbn [document observed].
  by rewrite !alter_alter.
Qed.

Lemma lazyBackgroundObserver_callback_reveal entries p :
  lazyBackgroundObserver_callback entries p =
  reveal_callback (classList_add "visible") entries p.
Proof. reflexivity. Qed.

Lemma intersecting_cons entry entries :
  intersecting (entry :: entries) =
  if isIntersecting entry then target entry :: intersecting entries
  else intersecting entries.
Proof.
  unfold intersecting. rewrite filter_cons.
  destruct (isIntersecting entry); by cbn.
Qed.

Lemma observe_all doc (l : list nat) (X : gset nat) :
  foldl (λ acc i, observe i acc) {| document := doc; observed := Some X |} l
  = {| document := doc; observed := Some (list_to_set l ∪ X) |}.
Proof.
  revert X. induction l as [|i l IH]; intros X; cbn [foldl].
  - do 2 f_equal. apply set_eq. intros x.
    rewrite elem_of_union, elem_of_list_to_set, elem_of_nil. tauto.
  - unfold observe at 2. cbn [document observed fmap option_fmap option_map].
    rewrite IH. do 2 f_equal. apply set_eq. intros x.
    rewrite !elem_of_union, !elem_of_list_to_set, elem_of_cons,
      elem_of_singleton. tauto.
Qed.

Section reveal.
Context (sel : Element → bool) (reveal : Element → Element).
Hypothesis reveal_idem : ∀ e, reveal (reveal e) = reveal e.

(** A batch changes the targets of its intersecting entries, each as by
    one [reveal], and nothing else. *)
Lemma reveal_callback_spec entries p :
  observed (reveal_callback reveal entries p) =
    (λ obs, obs ∖ list_to_set (intersecting entries)) <$> observed p ∧
  ∀ i, document (reveal_callback reveal entries p) !! i =
       if decide (i ∈ intersecting entries)
       then reveal <$> document p !! i else document p !! i.
Proof.
  unfold reveal_callback.
  revert p. induction entries as [|entry entries IH]; intros p.
  - cbn [foldl]. split.
    + destruct (observed p) as [obs|]; [|done]. cbn. f_equal.
      unfold intersecting. cbn. apply set_eq. intros x.
      rewrite elem_of_difference, elem_of_empty. tauto.
    + intros i. rewrite decide_False; [done|]. apply not_elem_of_nil.
  - cbn [foldl]. destruct (IH (reveal_entry reveal entry p)) as [Ho Hd].
    rewrite Ho. rewrite intersecting_cons.
    assert (Hq : observed (reveal_entry reveal entry p) =
                   (λ obs, if isIntersecting entry
                           then obs ∖ {[target entry]} else obs)
                   <$> observed p ∧
                 ∀ i, document (reveal_entry reveal entry p) !! i =
                      if isIntersecting entry
                      then (if decide (target entry = i)
                            then reveal <$> document p !! i
                            else document p !! i)
                      else document p !! i).
    { unfold reveal_entry. destruct (isIntersecting entry).
      - unfold unobserve, on_element. cbn [observed document].
        split; [done|]. intros i.
        destruct (decide (target entry = i)) as [<-|Hne].
        + apply list_lookup_alter_eq.
        + by apply list_lookup_alter_ne.
      - split; [by destruct (observed p)|done]. }
    destruct Hq as [Hqo Hqd]. rewrite Hqo. split.
    + destruct (observed p) as [obs|]; [|done]. cbn. f_equal.
      destruct (isIntersecting entry); [|done].
      apply set_eq. intros x.
      rewrite !elem_of_difference, !elem_of_list_to_set, elem_of_cons,
        elem_of_singleton. tauto.
    + intros i. rewrite Hd, Hqd.
      destruct (isIntersecting entry); [|done].
      destruct (decide (target entry = i)) as [->|Hne].
      * rewrite (decide_True (P := i ∈ i :: _)) by apply list_elem_of_here.
        destruct (decide (i ∈ intersecting entries)); [|done].
        destruct (document p !! i); [|done]. cbn. by rewrite reveal_idem.
      * destruct (decide (i ∈ intersecting entries)) as [Hin|Hout].
        -- by rewrite decide_True by (by apply list_elem_of_further).
        -- rewrite decide_False; [done|].
           intros [?|?]%elem_of_cons; [by subst|done].
Qed.

Lemma page_inv_initial doc :
  page_inv sel reveal doc
    (foldl (λ acc i, observe i acc)
           {| document := doc; observed := Some ∅ |}
           (querySelectorAll sel doc)).
Proof.
  rewrite observe_all. eexists. split; [reflexivity|].
  cbn [document]. split; [done|]. split.
  - intros i Hin. rewrite elem_of_union, elem_of_list_to_set in Hin.
    destruct Hin as [Hin|Hin]; [|by apply not_elem_of_empty in Hin].
    apply querySelectorAll_spec in Hin as (e & Hl & _).
    by apply lookup_lt_Some in Hl.
  - intros i e0 Hl. unfold element_state. cbn [document].
    destruct (sel e0) eqn:Hs.
    + left. split; [|done]. apply elem_of_union_l, elem_of_list_to_set.
      apply querySelectorAll_spec. by exists e0.
    + split; [|done]. intros Hin.
      rewrite elem_of_union, elem_of_list_to_set in Hin.
      destruct Hin as [Hin|Hin]; [|by apply not_elem_of_empty in Hin].
      apply querySelectorAll_spec in Hin as (e & He & Hse). congruence.
Qed.

Lemma deliver_page_inv doc0 entries p p' :
  deliver (reveal_callback reveal) entries p = Some p' →
  page_inv sel reveal doc0 p → page_inv sel reveal doc0 p'.
Proof.
  intros Hdel (obs & Hobs & Hlen & Hdom & Hst).
  unfold deliver in Hdel. rewrite Hobs in Hdel.
  destruct (forallb _ entries) eqn:Hall; [|discriminate].
  injection Hdel as <-. rewrite forallb_forall in Hall.
  destruct (reveal_callback_spec entries p) as [Ho Hd].
  rewrite Hobs in Ho. cbn in Ho.
  exists (obs ∖ list_to_set (intersecting entries)).
  split; [exact Ho|]. split; [|split].
  - rewrite <- Hlen. apply Nat.le_antisymm.
    + destruct (decide (length (document (reveal_callback reveal entries p))
                        ≤ length (document p))) as [|Hgt]; [done|].
      assert (Hlt : length (document p) <
                    length (document (reveal_callback reveal entries p)))
        by lia.
      apply lookup_lt_is_Some_2 in Hlt as [x Hx]. rewrite Hd in Hx.
      assert (document p !! length (document p) = None) as Hn
        by (apply lookup_ge_None; lia).
      rewrite Hn in Hx. by destruct (decide _).
    + destruct (decide (length (document p) ≤
                        length (document (reveal_callback reveal entries p))))
        as [|Hgt]; [done|].
      assert (Hlt : length (document (reveal_callback reveal entries p)) <
                    length (document p)) by lia.
      apply lookup_lt_is_Some_2 in Hlt as [x Hx].
      assert (document (reveal_callback reveal entries p)
                !! length (document (reveal_callback reveal entries p)) = None)
        as Hn by (apply lookup_ge_None; lia).
      rewrite Hd, Hx in Hn. by destruct (decide _).
  - intros i Hin. apply Hdom. by apply elem_of_difference in Hin as [? _].
  - intros i e0 Hl. specialize (Hst i e0 Hl). unfold element_state in *.
    rewrite Hd. cbn [document] in *.
    destruct (decide (i ∈ intersecting entries)) as [Hin|Hout].
    + assert (Hobsd : i ∈ obs).
      { unfold intersecting in Hin. apply list_elem_of_fmap in Hin
          as (entry & -> & Hin). apply list_elem_of_filter in Hin as [_ Hin].
        apply list_elem_of_In, Hall in Hin.
        by apply bool_decide_eq_true in Hin. }
      destruct (sel e0).
      * right. split.
        { rewrite elem_of_difference, elem_of_list_to_set. tauto. }
        destruct Hst as [[_ ->]|[Hno _]]; [done|done].
      * by destruct Hst.
    + destruct (sel e0).
      * destruct Hst as [[Hi He]|[Hi He]]; [left|right]; split; try done.
        -- apply elem_of_difference. split; [done|].
           by rewrite elem_of_list_to_set.
        -- by intros [? _]%elem_of_difference.
      * destruct Hst as [Hi He]. split; [|done].
        by intros [? _]%elem_of_difference.
Qed.

Lemma deliveries_page_inv doc0 batches p p' :
  deliveries (reveal_callback reveal) batches p = Some p' →
  page_inv sel reveal doc0 p → page_inv sel reveal doc0 p'.
Proof.
  revert p. induction batches as [|entries batches IH]; intros p Hd Hinv.
  - cbn in Hd. by injection Hd as <-.
  - cbn in Hd.
    destruct (deliver _ entries p) as [p1|] eqn:H1; [|discriminate].
    apply (IH p1 Hd). by apply (deliver_page_inv doc0 entries p).
Qed.
End reveal.

Lemma deliveries_ext (f g : list Entry → Page → Page) batches p :
  (∀ entries q, f entries q = g entries q) →
  deliveries f batches p = deliveries g batches p.
Proof.
  intros Hfg. revert p. induction batches as [|entries batches IH]; intros p.
  - done.
  - cbn. unfold deliver. rewrite Hfg.
    destruct (observed p) as [obs|]; [|done].
    destruct (forallb _ entries); [apply IH|done].
Qed.

(** ** Inline images *)

Lemma load_image_spec e :
  localName (load_image e) = localName e ∧
  classList (load_image e) = filter (λ c, c ≠ "lazy"%string) (classList e) ∧
  attributes (load_image e) !! "src"%string =
    Some (ToString (attributes e !! "data-src"%string)) ∧
  attributes (load_image e) !! "srcset"%string =
    Some (ToString (attributes e !! "data-srcset"%string)) ∧
  ∀ k, k ≠ "src"%string → k ≠ "srcset"%string →
       attributes (load_image e) !! k = attributes e !! k.
Proof.
  unfold load_image, classList_remove, assign, dataset.
  cbn [localName classList attributes String.append].
  split; [done|]. split; [done|]. split; [|split].
  - rewrite lookup_insert_ne by done. by rewrite lookup_insert_eq.
  - rewrite lookup_insert_eq. by rewrite lookup_insert_ne.
  - intros k H1 H2. by rewrite !lookup_insert_ne.
Qed.

Lemma Element_eq e1 e2 :
  localName e1 = localName e2 → classList e1 = classList e2 →
  attributes e1 = attributes e2 → e1 = e2.
Proof. destruct e1, e2. cbn. by intros -> -> ->. Qed.

(** Swapping an image that was swapped changes nothing. *)
Lemma load_image_idem e : load_image (load_image e) = load_image e.
Proof.
  destruct (load_image_spec e) as (Hn & Hc & Hs & Hss & Hk).
  destruct (load_image_spec (load_image e)) as (Hn' & Hc' & Hs' & Hss' & Hk').
  apply Element_eq.
  - done.
  - rewrite Hc', Hc. apply list_filter_filter_l. done.
  - apply map_eq. intros k.
    destruct (decide (k = "src"%string)) as [->|H1].
    { rewrite Hs', Hs. by rewrite Hk. }
    destruct (decide (k = "srcset"%string)) as [->|H2].
    { rewrite Hss', Hss. by rewrite Hk. }
    by apply Hk'.
Qed.

Lemma img_lazy_load_image e : img_lazy (load_image e) = false.
Proof.
  destruct (load_image_spec e) as (_ & Hc & _).
  unfold img_lazy. rewrite Hc. apply andb_false_iff. right.
  apply bool_decide_eq_false. rewrite list_elem_of_filter. by intros [? _].
Qed.

Lemma lazy_images_page_inv doc batches p :
  deliveries lazyImageObserver_callback batches
    (lazyImages_onDOMContentLoaded true doc) = Some p →
  page_inv img_lazy load_image doc p.
Proof.
  intros Hd.
  rewrite (deliveries_ext lazyImageObserver_callback
             (reveal_callback load_image) batches _
             lazyImageObserver_callback_reveal) in Hd.
  apply (deliveries_page_inv img_lazy load_image load_image_idem doc
           batches _ p Hd).
  apply page_inv_initial.
Qed.

(** Whatever the observer is told and in whatever order, every element of
    the loaded document is in one of three states: an [img.lazy] that is
    still observed and exactly as loaded; an [img.lazy] that is no longer
    observed and was swapped as by one run of the callback ([src] and
    [srcset] hold the text of [data-src] and [data-srcset], or the text
    "undefined" where the data attribute is missing, the class [lazy] is
    gone, every other attribute is as loaded); or an element that was not
    an [img.lazy], never observed and exactly as loaded. *)
Theorem lazy_images_swap_once (doc : list Element)
    (batches : list (list Entry)) (p : Page) :
  deliveries lazyImageObserver_callback batches
    (lazyImages_onDOMContentLoaded true doc) = Some p →
  ∃ obs, observed p = Some obs ∧
    ∀ i e0, doc !! i = Some e0 →
      if img_lazy e0 then
        (i ∈ obs ∧ document p !! i = Some e0) ∨
        ((i ∉ obs) ∧ ∃ e, document p !! i = Some e ∧
           localName e = localName e0 ∧
           classList e = filter (λ c, c ≠ "lazy"%string) (classList e0) ∧
           attributes e !! "src"%string =
             Some (ToString (attributes e0 !! "data-src"%string)) ∧
           attributes e !! "srcset"%string =
             Some (ToString (attributes e0 !! "data-srcset"%string)) ∧
           ∀ k, k ≠ "src"%string → k ≠ "srcset"%string →
                attributes e !! k = attributes e0 !! k)
      else (i ∉ obs) ∧ document p !! i = Some e0.
Proof.
  intros Hd. apply lazy_images_page_inv in Hd as (obs & Hobs & _ & _ & Hst).
  exists obs. split; [done|]. intros i e0 Hl.
  specialize (Hst i e0 Hl). unfold element_state in Hst.
  destruct (img_lazy e0); [|done].
  destruct Hst as [?|[Hi He]]; [by left|right]. split; [done|].
  exists (load_image e0). split; [done|]. apply load_image_spec.
Qed.

(** The class [lazy] marks exactly the images that are still waiting: at
    every point of a run, [img.lazy] selects the elements that the observer
    still observes, no other. *)
Theorem lazy_class_marks_observed_images (doc : list Element)
    (batches : list (list Entry)) (p : Page) :
  deliveries lazyImageObserver_callback batches
    (lazyImages_onDOMContentLoaded true doc) = Some p →
  ∃ obs, observed p = Some obs ∧
         ∀ i, i ∈ querySelectorAll img_lazy (document p) ↔ i ∈ obs.
Proof.
  intros Hd. apply lazy_images_page_inv in Hd as (obs & Hobs & Hlen & Hdom & Hst).
  exists obs. split; [done|]. intros i. rewrite querySelectorAll_spec. split.
  - intros (e & He & Hsel).
    assert (Hlt : i < length doc).
    { rewrite <- Hlen. by apply lookup_lt_Some in He. }
    apply lookup_lt_is_Some_2 in Hlt as [e0 He0].
    specialize (Hst i e0 He0). unfold element_state in Hst.
    destruct (img_lazy e0) eqn:H0.
    + destruct Hst as [[? _]|[_ He']]; [done|].
      rewrite He in He'. injection He' as ->.
      by rewrite img_lazy_load_image in Hsel.
    + destruct Hst as [_ He']. congruence.
  - intros Hin. pose proof (Hdom i Hin) as Hlt.
    apply lookup_lt_is_Some_2 in Hlt as [e0 He0].
    specialize (Hst i e0 He0). unfold element_state in Hst.
    destruct (img_lazy e0) eqn:H0.
    + destruct Hst as [[_ He]|[Hout _]]; [by exists e0|done].
    + by destruct Hst.
Qed.

Lemma lazy_images_swap_once_witness :
  let img := {| localName := "img"; classList := ["hero"; "lazy"]%string;
                attributes := {[ "src"%string := "placeholder.jpg"%string;
                                 "data-src"%string := "photo.jpg"%string ]} |} in
  let doc := [img] in
  let batches := [[{| target := 0; isIntersecting := true |}]] in
  let p := lazyImageObserver_callback
             [{| target := 0; isIntersecting := true |}]
             (lazyImages_onDOMContentLoaded true doc) in
  deliveries lazyImageObserver_callback batches
    (lazyImages_onDOMContentLoaded true doc) = Some p ∧
  ∃ obs, observed p = Some obs ∧
    ∀ i e0, doc !! i = Some e0 →
      if img_lazy e0 then
        (i ∈ obs ∧ document p !! i = Some e0) ∨
        ((i ∉ obs) ∧ ∃ e, document p !! i = Some e ∧
           localName e = localName e0 ∧
           classList e = filter (λ c, c ≠ "lazy"%string) (classList e0) ∧
           attributes e !! "src"%string =
             Some (ToString (attributes e0 !! "data-src"%string)) ∧
           attributes e !! "srcset"%string =
             Some (ToString (attributes e0 !! "data-srcset"%string)) ∧
           ∀ k, k ≠ "src"%string → k ≠ "srcset"%string →
                attributes e !! k = attributes e0 !! k)
      else (i ∉ obs) ∧ document p !! i = Some e0.
Proof.
  intros img doc batches p. split; [vm_compute; reflexivity|].
  apply (lazy_images_swap_once doc batches p). vm_compute; reflexivity.
Defined.

Lemma lazy_class_marks_observed_images_witness :
  let img := {| localName := "img"; classList := ["lazy"]%string;
                attributes := {[ "data-src"%string := "photo.jpg"%string ]} |} in
  let doc := [img; img] in
  let batches := [[{| target := 1; isIntersecting := true |}]] in
  let p := lazyImageObserver_callback
             [{| target := 1; isIntersecting := true |}]
             (lazyImages_onDOMContentLoaded true doc) in
  deliveries lazyImageObserver_callback batches
    (lazyImages_onDOMContentLoaded true doc) = Some p ∧
  ∃ obs, observed p = Some obs ∧
         ∀ i, i ∈ querySelectorAll img_lazy (document p) ↔ i ∈ obs.
Proof.
  intros img doc batches p. split; [vm_compute; reflexivity|].
  apply (lazy_class_marks_observed_images doc batches p).
  vm_compute; reflexivity.
Defined.

Lemma Page_eq p1 p2 :
  document p1 = document p2 → observed p1 = observed p2 → p1 = p2.
Proof. destruct p1, p2. cbn. by intros -> ->. Qed.

(** What a batch does depends only on which targets it reports as
    intersecting: the order of its entries, entries that do not intersect
    and repeated entries for one target make no difference. *)
Theorem image_batch_depends_on_targets_only (entries entries' : list Entry)
    (p : Page) :
  (∀ i, i ∈ intersecting entries ↔ i ∈ intersecting entries') →
  lazyImageObserver_callback entries p = lazyImageObserver_callback entries' p.
Proof.
  intros Hsame. rewrite !lazyImageObserver_callback_reveal.
  destruct (reveal_callback_spec load_image load_image_idem entries p)
    as [Ho Hd].
  destruct (reveal_callback_spec load_image load_image_idem entries' p)
    as [Ho' Hd'].
  apply Page_eq.
  - apply list_eq. intros i. rewrite Hd, Hd'.
    destruct (decide (i ∈ intersecting entries)) as [Hin|Hout].
    + by rewrite decide_True by (by apply Hsame).
    + by rewrite decide_False by (by rewrite <- Hsame).
  - rewrite Ho, Ho'. destruct (observed p) as [obs|]; [|done]. cbn. f_equal.
    apply set_eq. intros x.
    rewrite !elem_of_difference, !elem_of_list_to_set. by rewrite Hsame.
Qed.

Lemma image_batch_depends_on_targets_only_witness :
  let img := {| localName := "img"; classList := ["lazy"]%string;
                attributes := {[ "data-src"%string := "photo.jpg"%string ]} |} in
  let p := lazyImages_onDOMContentLoaded true [img; img; img] in
  let entries := [{| target := 0; isIntersecting := true |};
                  {| target := 1; isIntersecting := false |};
                  {| target := 2; isIntersecting := true |};
                  {| target := 0; isIntersecting := true |}] in
  let entries' := [{| target := 2; isIntersecting := true |};
                   {| target := 0; isIntersecting := true |}] in
  (∀ i, i ∈ intersecting entries ↔ i ∈ intersecting entries') ∧
  lazyImageObserver_callback entries p = lazyImageObserver_callback entries' p.
Proof.
  intros img p entries entries'.
  assert (H : ∀ i, i ∈ intersecting entries ↔ i ∈ intersecting entries').
  { intros i. vm_compute intersecting. rewrite !elem_of_cons, !elem_of_nil.
    tauto. }
  split; [exact H|].
  exact (image_batch_depends_on_targets_only entries entries' p H).
Defined.

(** ** Background images *)

Lemma classList_add_spec token e :
  localName (classList_add token e) = localName e ∧
  attributes (classList_add token e) = attributes e ∧
  (∀ c, c ∈ classList (classList_add token e) ↔ c = token ∨ c ∈ classList e) ∧
  (NoDup (classList e) → NoDup (classList (classList_add token e))).
Proof.
  unfold classList_add. cbn [localName attributes classList].
  split; [done|]. split; [done|].
  destruct (decide (token ∈ classList e)) as [Hin|Hout]; split.
  - intros c. split; [by right|]. by intros [->|?].
  - done.
  - intros c. rewrite elem_of_app, list_elem_of_singleton. tauto.
  - intros Hnd. apply NoDup_app. split; [done|]. split.
    + intros c Hc ->%list_elem_of_singleton. done.
    + apply NoDup_singleton.
Qed.

Lemma classList_add_idem token e :
  classList_add token (classList_add token e) = classList_add token e.
Proof.
  apply Element_eq; try done.
  unfold classList_add at 1. cbn [classList].
  rewrite decide_True; [done|]. apply classList_add_spec. by left.
Qed.

(** Whatever the observer is told and in whatever order, every element of
    the loaded document is in one of three states: a [.lazy-background]
    that is still observed and exactly as loaded; a [.lazy-background] that
    is no longer observed and has the class [visible], once, beside the
    classes it had, [lazy-background] among them, with its attributes as
    loaded; or an element that was no [.lazy-background], never observed
    and exactly as loaded. *)
Theorem lazy_backgrounds_revealed_once (doc : list Element)
    (batches : list (list Entry)) (p : Page) :
  deliveries lazyBackgroundObserver_callback batches
    (lazyBackgrounds_onDOMContentLoaded true doc) = Some p →
  ∃ obs, observed p = Some obs ∧
    ∀ i e0, doc !! i = Some e0 →
      if lazy_background e0 then
        (i ∈ obs ∧ document p !! i = Some e0) ∨
        ((i ∉ obs) ∧ ∃ e, document p !! i = Some e ∧
           "visible"%string ∈ classList e ∧
           "lazy-background"%string ∈ classList e ∧
           (∀ c, c ∈ classList e ↔ c = "visible"%string ∨ c ∈ classList e0) ∧
           (NoDup (classList e0) → NoDup (classList e)) ∧
           localName e = localName e0 ∧
           attributes e = attributes e0)
      else (i ∉ obs) ∧ document p !! i = Some e0.
Proof.
  intros Hd.
  assert (Hinv : page_inv lazy_background (classList_add "visible") doc p).
  { apply (deliveries_page_inv lazy_background (classList_add "visible")
             (classList_add_idem "visible") doc batches _ p Hd).
    apply page_inv_initial. }
  destruct Hinv as (obs & Hobs & _ & _ & Hst).
  exists obs. split; [done|]. intros i e0 Hl.
  specialize (Hst i e0 Hl). unfold element_state in Hst.
  destruct (lazy_background e0) eqn:Hsel; [|done].
  destruct Hst as [?|[Hi He]]; [by left|right]. split; [done|].
  exists (classList_add "visible" e0). split; [done|].
  destruct (classList_add_spec "visible" e0) as (Hn & Ha & Hc & Hnd).
  split; [apply Hc; by left|]. split.
  - apply Hc. right. by apply bool_decide_eq_true in Hsel.
  - done.
Qed.

Lemma lazy_backgrounds_revealed_once_witness :
  let div := {| localName := "div"; classList := ["lazy-background"]%string;
                attributes := ∅ |} in
  let doc := [div] in
  let batches := [[{| target := 0; isIntersecting := false |}];
                  [{| target := 0; isIntersecting := true |}]] in
  let p := lazyBackgroundObserver_callback
             [{| target := 0; isIntersecting := true |}]
             (lazyBackgrounds_onDOMContentLoaded true doc) in
  deliveries lazyBackgroundObserver_callback batches
    (lazyBackgrounds_onDOMContentLoaded true doc) = Some p ∧
  ∃ obs, observed p = Some obs ∧
    ∀ i e0, doc !! i = Some e0 →
      if lazy_background e0 then
        (i ∈ obs ∧ document p !! i = Some e0) ∨
        ((i ∉ obs) ∧ ∃ e, document p !! i = Some e ∧
           "visible"%string ∈ classList e ∧
           "lazy-background"%string ∈ classList e ∧
           (∀ c, c ∈ classList e ↔ c = "visible"%string ∨ c ∈ classList e0) ∧
           (NoDup (classList e0) → NoDup (classList e)) ∧
           localName e = localName e0 ∧
           attributes e = attributes e0)
      else (i ∉ obs) ∧ document p !! i = Some e0.
Proof.
  intros div doc batches p. split; [vm_compute; reflexivity|].
  apply (lazy_backgrounds_revealed_once doc batches p). vm_compute; reflexivity.
Defined.

End LazyLoadFacts.
